(** * simple-caches: CacheTTL and CacheLRU (src/index.ts)

    Both classes extend the built-in JavaScript [Map].  A [Map] keeps its
    entries in insertion order, holds each key at most once, and
    - [set] on a key that is present replaces the value in place,
    - [set] on a key that is absent appends the entry at the end,
    - [delete] removes the entry of the key,
    - [keys().next().value] is the first key in iteration order
      ([undefined] on an empty map).
    Iteration order decides which entry CacheLRU evicts, so a map is an
    association list here, oldest entry first.

    Numbers: [Date.now()], the [ttl] argument, the sweep interval and the
    capacity are JavaScript numbers in the source.  They are integers ([Z])
    in this development: millisecond clock readings and entry counts, for
    which the double arithmetic of [+], [>] and [>=] is exact. *)

From Stdlib Require Import ZArith Lia.
From stdpp Require Import base tactics option list strings.

Local Open Scope Z_scope.
Set Warnings "-clear-no-such-hyp".

(** ** The built-in Map *)

Section jsmap.
Context {K V : Type} `{!EqDecision K}.

(** [Map.prototype.get]: [None] stands for [undefined]. *)
Fixpoint jsmap_get (k : K) (m : list (K * V)) : option V :=
  match m with
  | [] => None
  | (k', v) :: m' => if decide (k = k') then Some v else jsmap_get k m'
  end.

(** [Map.prototype.has]. *)
Definition jsmap_has (k : K) (m : list (K * V)) : bool :=
  match jsmap_get k m with
  | Some _ => true
  | None => false
  end.

(** [Map.prototype.set]: overwrite in place, or append. *)
Fixpoint jsmap_set (k : K) (v : V) (m : list (K * V)) : list (K * V) :=
  match m with
  | [] => [(k, v)]
  | (k', v') :: m' =>
      if decide (k = k') then (k, v) :: m' else (k', v') :: jsmap_set k v m'
  end.

(** [Map.prototype.delete] (the state after it; the boolean it returns is
    [jsmap_has] on the state before). *)
Fixpoint jsmap_delete (k : K) (m : list (K * V)) : list (K * V) :=
  match m with
  | [] => []
  | (k', v') :: m' =>
      if decide (k = k') then jsmap_delete k m' else (k', v') :: jsmap_delete k m'
  end.

(** [Map.prototype.size]. *)
Definition jsmap_size (m : list (K * V)) : Z := Z.of_nat (length m).

(** [keys().next().value]: [None] stands for the [undefined] that an
    exhausted iterator yields. *)
Definition jsmap_first_key (m : list (K * V)) : option K := head (m.*1).
End jsmap.

(** The key list of a map after [set] and [delete], as functions of the key
    list before: they do not look at the values. *)
Section keys.
Context {K : Type} `{!EqDecision K}.

Fixpoint keys_set (k : K) (ks : list K) : list K :=
  match ks with
  | [] => [k]
  | k' :: ks' => if decide (k = k') then k :: ks' else k' :: keys_set k ks'
  end.

Fixpoint keys_delete (k : K) (ks : list K) : list K :=
  match ks with
  | [] => []
  | k' :: ks' => if decide (k = k') then keys_delete k ks' else k' :: keys_delete k ks'
  end.
End keys.

(** ** CacheLRU (src/index.ts, lines 107-149) *)

Module CacheLRU.
Section lru.
Context {K V : Type} `{!EqDecision K}.

(** The object: the entries of the [Map] it extends, and [capacity]. *)
Record t : Type := mk { entries : list (K * V); capacity : Z }.

(** [constructor(capacity = 100)]. *)
Definition new (cap : option Z) : t :=
  {| entries := []; capacity := default 100 cap |}.

(** [get(key)]: the value read (if any) and the object afterwards. *)
Definition get (key : K) (c : t) : option V * t :=
  if negb (jsmap_has key (entries c)) then (None, c)
  else
    let value := jsmap_get key (entries c) in
    match value with
    | Some x =>
        (value,
         {| entries := jsmap_set key x (jsmap_delete key (entries c));
            capacity := capacity c |})
    | None => (None, c)
    end.

(** [super.delete(super.keys().next().value)]: on an empty map the key is
    [undefined], which the empty map does not hold, so nothing changes. *)
Definition evict_first (m : list (K * V)) : list (K * V) :=
  match jsmap_first_key m with
  | Some k => jsmap_delete k m
  | None => m
  end.

(** [set(key, value)]. *)
Definition set (key : K) (value : V) (c : t) : t :=
  let m := if jsmap_size (entries c) >=? capacity c
           then evict_first (entries c) else entries c in
  {| entries := jsmap_set key value m; capacity := capacity c |}.

(** [delete] and [clear] are the ones of [Map]. *)
Definition delete (key : K) (c : t) : bool * t :=
  (jsmap_has key (entries c),
   {| entries := jsmap_delete key (entries c); capacity := capacity c |}).

Definition clear (c : t) : t := {| entries := []; capacity := capacity c |}.

(** [has] and [size] are the ones of [Map] too. *)
Definition has (key : K) (c : t) : bool := jsmap_has key (entries c).
Definition size (c : t) : Z := jsmap_size (entries c).

(** The public operations, as data, and a run of them. *)
Inductive op : Type :=
| Get (key : K)
| Set_ (key : K) (value : V)
| Delete (key : K)
| Clear.

Definition step (c : t) (o : op) : t :=
  match o with
  | Get key => (get key c).2
  | Set_ key value => set key value c
  | Delete key => (delete key c).2
  | Clear => clear c
  end.

Definition run (ops : list op) (c : t) : t := foldl step c ops.

(** Inserting a list of pairs, first pair first. *)
Definition set_all (kvs : list (K * V)) (c : t) : t :=
  foldl (λ c kv, set kv.1 kv.2 c) c kvs.
End lru.
Global Arguments t : clear implicits.
Global Arguments op : clear implicits.
End CacheLRU.

(** The scenario of the specification, with string keys. *)
Definition lru_scenario : CacheLRU.t string Z :=
  let c0 := CacheLRU.new (Some 2) in
  let c1 := CacheLRU.set "a"%string 1 c0 in
  let c2 := CacheLRU.set "b"%string 2 c1 in
  let c3 := (CacheLRU.get "a"%string c2).2 in
  CacheLRU.set "c"%string 3 c3.

(** ** CacheTTL (src/index.ts, lines 10-98) *)

Module CacheTTL.
Section ttl.
Context {K V : Type} `{!EqDecision K}.

(** The handle that [setInterval(callback, ms)] returns; the callback is
    always the sweep below, so the handle records the period only. *)
Record Timeout : Type := { period : Z }.

(** The object: the entries of the [Map] it extends, and its three private
    fields.  [expirationInterval = None] is [undefined]: no timer is
    scheduled.  A timer is scheduled exactly while the field holds its
    handle, because the field is the only place a handle is kept and
    [clearInterval] is only ever called on it. *)
Record t : Type := mk {
  entries : list (K * V);
  interval : Z;
  expirationTimes : list (K * Z);
  expirationInterval : option Timeout
}.

Definition with_entries (m : list (K * V)) (c : t) : t :=
  mk m (interval c) (expirationTimes c) (expirationInterval c).
Definition with_expirationTimes (x : list (K * Z)) (c : t) : t :=
  mk (entries c) (interval c) x (expirationInterval c).
Definition with_expirationInterval (h : option Timeout) (c : t) : t :=
  mk (entries c) (interval c) (expirationTimes c) h.

(** [startExpirationInterval()], lines 18-34: schedules the sweep unless
    one is scheduled, nothing is tracked, or the interval is not
    positive. *)
Definition startExpirationInterval (c : t) : t :=
  match expirationInterval c with
  | None =>
      if (jsmap_size (expirationTimes c) >? 0) && (interval c >? 0)
      then with_expirationInterval (Some {| period := interval c |}) c
      else c
  | Some _ => c
  end.

(** The body of the [forEach] callback, lines 23-26, at one entry of
    [expirationTimes]. *)
Definition sweep_entry (now : Z) (c : t) (e : K * Z) : t :=
  let '(key, ttl) := e in
  if now >? ttl
  then with_entries (jsmap_delete key (entries c))
         (with_expirationTimes (jsmap_delete key (expirationTimes c)) c)
  else c.

(** The timer callback, lines 20-32, run at clock reading [now].
    [forEach] visits every entry that is in [expirationTimes] when the
    callback starts: deleting the entry being visited does not disturb
    the visit of the others. *)
Definition sweep (now : Z) (c : t) : t :=
  let c' := foldl (sweep_entry now) c (expirationTimes c) in
  if jsmap_size (expirationTimes c') =? 0
  then with_expirationInterval None c'
  else c'.

(** One firing of the timer: the callback runs only while the timer is
    scheduled. *)
Definition tick (now : Z) (c : t) : t :=
  match expirationInterval c with
  | Some _ => sweep now c
  | None => c
  end.

(** [constructor(interval = 0)], lines 41-49. *)
Definition new (itv : option Z) : t :=
  let c := mk [] (default 0 itv) [] None in
  if interval c >? 0 then startExpirationInterval c else c.

(** [set(key, data, ttl = this.interval)], lines 59-65, at clock reading
    [now]. *)
Definition set (key : K) (data : V) (ttl : option Z) (now : Z) (c : t) : t :=
  let ttl := default (interval c) ttl in
  let c := with_entries (jsmap_set key data (entries c)) c in
  let expirationTime := now + ttl in
  let c := with_expirationTimes
             (jsmap_set key expirationTime (expirationTimes c)) c in
  startExpirationInterval c.

(** JavaScript truthiness of a looked-up timestamp: [undefined] and [0]
    are falsy. *)
Definition truthy (x : option Z) : bool :=
  match x with
  | Some z => negb (z =? 0)
  | None => false
  end.

(** [get(key)], lines 72-80, at clock reading [now]: the value read (if
    any) and the object afterwards. *)
Definition get (key : K) (now : Z) (c : t) : option V * t :=
  let expirationTime := jsmap_get key (expirationTimes c) in
  if truthy expirationTime && (now >? default 0 expirationTime)
  then
    (None,
     with_entries (jsmap_delete key (entries c))
       (with_expirationTimes (jsmap_delete key (expirationTimes c)) c))
  else (jsmap_get key (entries c), c).

(** [delete(key)], lines 87-90. *)
Definition delete (key : K) (c : t) : bool * t :=
  let c := with_expirationTimes (jsmap_delete key (expirationTimes c)) c in
  (jsmap_has key (entries c),
   with_entries (jsmap_delete key (entries c)) c).

(** [clear()], lines 94-97. *)
Definition clear (c : t) : t :=
  with_entries [] (with_expirationTimes [] c).

(** [has] and [size] are not overridden: they are the ones of [Map], on the
    value store, and read no clock. *)
Definition has (key : K) (c : t) : bool := jsmap_has key (entries c).
Definition size (c : t) : Z := jsmap_size (entries c).

(** The public operations and the firing of the timer, as data, and a run
    of them. *)
Inductive op : Type :=
| Set_ (key : K) (data : V) (ttl : option Z) (now : Z)
| Get (key : K) (now : Z)
| Delete (key : K)
| Clear
| Tick (now : Z).

Definition step (c : t) (o : op) : t :=
  match o with
  | Set_ key data ttl now => set key data ttl now c
  | Get key now => (get key now c).2
  | Delete key => (delete key c).2
  | Clear => clear c
  | Tick now => tick now c
  end.

Definition run (ops : list op) (c : t) : t := foldl step c ops.

(** Timer firings at the clock readings [ts], first one first. *)
Definition ticks (ts : list Z) (c : t) : t := foldl (λ c now, tick now c) c ts.

(** Both maps hold the same keys in the same order, each key once. *)
Definition lockstep (c : t) : Prop :=
  (entries c).*1 = (expirationTimes c).*1 ∧ NoDup ((entries c).*1).
End ttl.
Global Arguments t : clear implicits.
Global Arguments op : clear implicits.
End CacheTTL.

(** * Properties *)

(** ** Facts about the built-in Map *)

Section jsmap_facts.
Context {K V : Type} `{!EqDecision K}.
Implicit Types (k : K) (v : V) (m : list (K * V)).

Lemma jsmap_keys_set k v m : (jsmap_set k v m).*1 = keys_set k (m.*1).
Proof.
  induction m as [|[k' v'] m IH]; csimpl; [done|].
  case_decide; csimpl; [done|]. by rewrite IH.
Qed.

Lemma jsmap_keys_delete k m : (jsmap_delete k m).*1 = keys_delete k (m.*1).
Proof.
  induction m as [|[k' v'] m IH]; csimpl; [done|].
  case_decide; csimpl; [done|]. by rewrite IH.
Qed.

Lemma jsmap_get_None k m : jsmap_get k m = None ↔ k ∉ m.*1.
Proof.
  induction m as [|[k' v'] m IH]; simpl.
  - split; [intros _; apply not_elem_of_nil | done].
  - rewrite not_elem_of_cons. case_decide; naive_solver.
Qed.

Lemma jsmap_get_Some_elem k v m : jsmap_get k m = Some v → k ∈ m.*1.
Proof.
  intros Hg. destruct (decide (k ∈ m.*1)) as [|Hn]; [done|].
  apply jsmap_get_None in Hn. congruence.
Qed.

Lemma jsmap_has_true k m : jsmap_has k m = true ↔ k ∈ m.*1.
Proof.
  unfold jsmap_has. destruct (jsmap_get k m) eqn:Hg.
  - split; [intros _; by eapply jsmap_get_Some_elem | done].
  - apply jsmap_get_None in Hg. naive_solver.
Qed.

Lemma jsmap_has_false k m : jsmap_has k m = false ↔ k ∉ m.*1.
Proof.
  rewrite <- jsmap_has_true. destruct (jsmap_has k m); naive_solver.
Qed.

Lemma jsmap_get_set_eq k v m : jsmap_get k (jsmap_set k v m) = Some v.
Proof.
  induction m as [|[k' v'] m IH]; simpl.
  - by rewrite decide_True.
  - case_decide; simpl.
    + by rewrite decide_True.
    + by rewrite decide_False.
Qed.

Lemma jsmap_get_set_ne k k' v m :
  k ≠ k' → jsmap_get k (jsmap_set k' v m) = jsmap_get k m.
Proof.
  intros Hne. induction m as [|[k1 v1] m IH]; simpl.
  - by rewrite decide_False.
  - destruct (decide (k' = k1)) as [->|]; simpl.
    + by rewrite !decide_False.
    + by rewrite IH.
Qed.

Lemma jsmap_get_delete_eq k m : jsmap_get k (jsmap_delete k m) = None.
Proof.
  induction m as [|[k' v'] m IH]; simpl; [done|].
  case_decide; simpl; [done|]. by rewrite decide_False.
Qed.

Lemma jsmap_get_delete_ne k k' m :
  k ≠ k' → jsmap_get k (jsmap_delete k' m) = jsmap_get k m.
Proof.
  intros Hne. induction m as [|[k1 v1] m IH]; simpl; [done|].
  destruct (decide (k' = k1)) as [->|]; simpl.
  - by rewrite decide_False.
  - by rewrite IH.
Qed.

(** What survives a [delete] was there before, with the same value. *)
Lemma jsmap_get_delete_Some k k' v m :
  jsmap_get k (jsmap_delete k' m) = Some v → jsmap_get k m = Some v.
Proof.
  destruct (decide (k = k')) as [->|Hne].
  - by rewrite jsmap_get_delete_eq.
  - by rewrite jsmap_get_delete_ne.
Qed.

Lemma jsmap_set_fresh k v m : k ∉ m.*1 → jsmap_set k v m = m ++ [(k, v)].
Proof.
  induction m as [|[k' v'] m IH]; simpl; [done|].
  rewrite not_elem_of_cons. intros [Hne Hnin].
  rewrite decide_False by done. by rewrite IH.
Qed.

Lemma jsmap_delete_fresh k m : k ∉ m.*1 → jsmap_delete k m = m.
Proof.
  induction m as [|[k' v'] m IH]; simpl; [done|].
  rewrite not_elem_of_cons. intros [Hne Hnin].
  rewrite decide_False by done. by rewrite IH.
Qed.

(** With each key held once, deleting the first key drops the first entry
    and nothing else. *)
Lemma jsmap_delete_head k v m :
  NoDup (((k, v) :: m).*1) → jsmap_delete k ((k, v) :: m) = m.
Proof.
  simpl. rewrite NoDup_cons. intros [Hnin _].
  rewrite decide_True by done. by apply jsmap_delete_fresh.
Qed.

Lemma jsmap_length_set k v m :
  (length (jsmap_set k v m) ≤ S (length m))%nat.
Proof.
  induction m as [|[k' v'] m IH]; simpl; [lia|].
  case_decide; simpl; lia.
Qed.

Lemma jsmap_length_set_has k v m :
  k ∈ m.*1 → length (jsmap_set k v m) = length m.
Proof.
  induction m as [|[k' v'] m IH]; simpl.
  - by intros ?%elem_of_nil.
  - rewrite elem_of_cons. case_decide; simpl; [done|].
    intros [?|Hin]; [done|]. by rewrite IH.
Qed.

Lemma jsmap_length_delete k m :
  (length (jsmap_delete k m) ≤ length m)%nat.
Proof.
  induction m as [|[k' v'] m IH]; simpl; [lia|].
  case_decide; simpl; lia.
Qed.

Lemma jsmap_length_delete_has k m :
  k ∈ m.*1 → (length (jsmap_delete k m) < length m)%nat.
Proof.
  induction m as [|[k' v'] m IH]; simpl.
  - by intros ?%elem_of_nil.
  - rewrite elem_of_cons. case_decide; simpl.
    + intros _. pose proof (jsmap_length_delete k m). lia.
    + intros [?|Hin]; [done|]. apply IH in Hin. lia.
Qed.
End jsmap_facts.

Section keys_facts.
Context {K : Type} `{!EqDecision K}.
Implicit Types (k : K) (ks : list K).

Lemma elem_of_keys_delete k k' ks :
  k ∈ keys_delete k' ks ↔ k ≠ k' ∧ k ∈ ks.
Proof.
  induction ks as [|k1 ks IH]; simpl.
  - rewrite elem_of_nil. naive_solver.
  - case_decide; rewrite ?elem_of_cons, IH; naive_solver.
Qed.

Lemma elem_of_keys_set k k' ks :
  k ∈ keys_set k' ks ↔ k = k' ∨ k ∈ ks.
Proof.
  induction ks as [|k1 ks IH]; simpl.
  - rewrite list_elem_of_singleton, elem_of_nil. naive_solver.
  - case_decide; rewrite ?elem_of_cons, ?IH; naive_solver.
Qed.

Lemma NoDup_keys_delete k ks : NoDup ks → NoDup (keys_delete k ks).
Proof.
  induction 1 as [|k1 ks Hnin Hnd IH]; simpl; [constructor|].
  case_decide; [done|].
  constructor; [|done]. rewrite elem_of_keys_delete. naive_solver.
Qed.

Lemma NoDup_keys_set k ks : NoDup ks → NoDup (keys_set k ks).
Proof.
  induction 1 as [|k1 ks Hnin Hnd IH]; simpl.
  - apply NoDup_singleton.
  - case_decide as Heq.
    + subst. by constructor.
    + constructor; [|done]. rewrite elem_of_keys_set. naive_solver.
Qed.
End keys_facts.

(** ** CacheLRU *)

Section lru_facts.
Context {K V : Type} `{!EqDecision K}.
Implicit Types (k key : K) (v value : V) (m kvs rest : list (K * V)).
Implicit Types (c : CacheLRU.t K V).
Import CacheLRU.

Lemma lru_capacity_step c (o : op K V) : capacity (step c o) = capacity c.
Proof.
  destruct o as [key|key value|key|]; simpl; try done.
  unfold get. destruct (jsmap_has key (entries c)); simpl; [|done].
  by destruct (jsmap_get key (entries c)).
Qed.

Lemma lru_capacity_run (ops : list (op K V)) c :
  capacity (run ops c) = capacity c.
Proof.
  unfold run. revert c. induction ops as [|o ops IH]; intros c; simpl; [done|].
  by rewrite IH, lru_capacity_step.
Qed.

Lemma lru_evict_first_length m :
  (length (evict_first m) ≤ pred (length m))%nat.
Proof.
  destruct m as [|[k v] m]; simpl; [done|].
  unfold evict_first; simpl. rewrite decide_True by done.
  apply jsmap_length_delete.
Qed.

(** A read never grows the cache. *)
Lemma lru_get_length key c :
  (length (entries (get key c).2) ≤ length (entries c))%nat.
Proof.
  unfold get. destruct (jsmap_has key (entries c)) eqn:Hhas; simpl; [|done].
  destruct (jsmap_get key (entries c)) as [x|]; simpl; [|done].
  apply jsmap_has_true in Hhas.
  pose proof (jsmap_length_delete_has key (entries c) Hhas).
  pose proof (jsmap_length_set key x (jsmap_delete key (entries c))). lia.
Qed.

(** Below capacity, a fresh key is appended and nothing is evicted. *)
Lemma lru_set_below key value c :
  jsmap_size (entries c) < capacity c → key ∉ (entries c).*1 →
  entries (set key value c) = entries c ++ [(key, value)].
Proof.
  intros Hlt Hfresh. unfold set; simpl.
  destruct (Z.geb_spec (jsmap_size (entries c)) (capacity c)); [lia|].
  by apply jsmap_set_fresh.
Qed.

(** At or over capacity, the first key in iteration order goes, then the
    pair is stored. *)
Lemma lru_set_full key value c k0 v0 rest :
  capacity c ≤ jsmap_size (entries c) →
  NoDup ((entries c).*1) →
  entries c = (k0, v0) :: rest →
  entries (set key value c) = jsmap_set key value rest.
Proof.
  intros Hge Hnd Hent. unfold set; simpl.
  destruct (Z.geb_spec (jsmap_size (entries c)) (capacity c)); [|lia].
  rewrite Hent in Hnd |- *. unfold evict_first; simpl.
  change (jsmap_set key value (jsmap_delete k0 ((k0, v0) :: rest))
          = jsmap_set key value rest).
  by rewrite jsmap_delete_head.
Qed.

Lemma lru_set_all_snoc kvs kv c :
  set_all (kvs ++ [kv]) c = set kv.1 kv.2 (set_all kvs c).
Proof. unfold set_all. by rewrite foldl_app. Qed.

(** Distinct keys that fit are all kept, in insertion order. *)
Lemma lru_set_all_fits kvs (C : Z) :
  NoDup (kvs.*1) → Z.of_nat (length kvs) ≤ C →
  entries (set_all kvs (new (Some C))) = kvs
  ∧ capacity (set_all kvs (new (Some C))) = C.
Proof.
  induction kvs as [|[k v] kvs IH] using rev_ind; intros Hnd Hlen; [done|].
  rewrite fmap_app in Hnd. apply NoDup_app in Hnd as (Hnd & Hfresh & _).
  rewrite length_app in Hlen; simpl in Hlen.
  destruct IH as [IHe IHc]; [done|lia|].
  rewrite lru_set_all_snoc. split; [|done].
  change ((k, v).1) with k. change ((k, v).2) with v.
  rewrite lru_set_below; rewrite ?IHe, ?IHc; unfold jsmap_size.
  - done.
  - lia.
  - intros Hin. apply (Hfresh k Hin). csimpl. apply elem_of_cons; by left.
Qed.

Lemma lru_get_set key value c : (get key (set key value c)).1 = Some value.
Proof.
  unfold get, jsmap_has. set (c' := set key value c).
  assert (jsmap_get key (entries c') = Some value) as ->; [|done].
  apply jsmap_get_set_eq.
Qed.

Lemma lru_size_step (C : Z) c (o : op K V) :
  1 ≤ C → capacity c = C → jsmap_size (entries c) ≤ C →
  jsmap_size (entries (step c o)) ≤ C.
Proof.
  unfold jsmap_size. intros HC Hcap Hsz.
  destruct o as [key|key value|key|]; simpl.
  - pose proof (lru_get_length key c). lia.
  - unfold set; simpl. unfold jsmap_size. rewrite Hcap.
    destruct (Z.geb_spec (Z.of_nat (length (entries c))) C).
    + pose proof (lru_evict_first_length (entries c)).
      pose proof (jsmap_length_set key value (evict_first (entries c))). lia.
    + pose proof (jsmap_length_set key value (entries c)). lia.
  - pose proof (jsmap_length_delete key (entries c)). lia.
  - lia.
Qed.

(** With capacity 0 the entry count never passes 1. *)
Lemma lru_zero_size_step c (o : op K V) :
  capacity c = 0 → jsmap_size (entries c) ≤ 1 →
  jsmap_size (entries (step c o)) ≤ 1.
Proof.
  unfold jsmap_size. intros Hcap Hsz.
  destruct o as [key|key value|key|]; simpl.
  - pose proof (lru_get_length key c). lia.
  - unfold set; simpl. unfold jsmap_size. rewrite Hcap.
    destruct (Z.geb_spec (Z.of_nat (length (entries c))) 0); [|lia].
    pose proof (lru_evict_first_length (entries c)).
    pose proof (jsmap_length_set key value (evict_first (entries c))). lia.
  - pose proof (jsmap_length_delete key (entries c)). lia.
  - lia.
Qed.

Lemma lru_zero_size_run (ops : list (op K V)) c :
  capacity c = 0 → jsmap_size (entries c) ≤ 1 →
  jsmap_size (entries (run ops c)) ≤ 1.
Proof.
  unfold run. revert c.
  induction ops as [|o ops IH]; intros c Hcap Hsz; simpl; [done|].
  apply IH; [by rewrite lru_capacity_step | by apply lru_zero_size_step].
Qed.

Lemma lru_zero_set_size key value c :
  capacity c = 0 → jsmap_size (entries c) ≤ 1 →
  jsmap_size (entries (set key value c)) = 1.
Proof.
  unfold jsmap_size. intros Hcap Hsz. unfold set; simpl.
  unfold jsmap_size. rewrite Hcap.
  destruct (Z.geb_spec (Z.of_nat (length (entries c))) 0); [|lia].
  pose proof (lru_evict_first_length (entries c)).
  destruct (evict_first (entries c)) as [|? [|? ?]]; simpl in *; [done|lia|lia].
Qed.
End lru_facts.

(** ** CacheTTL *)

Section ttl_facts.
Context {K V : Type} `{!EqDecision K}.
Implicit Types (k key : K) (v data : V) (now t e : Z).
Implicit Types (c : CacheTTL.t K V).
Import CacheTTL.

Lemma jsmap_elem_get {A} k (x : A) (m : list (K * A)) :
  NoDup (m.*1) → (k, x) ∈ m → jsmap_get k m = Some x.
Proof.
  induction m as [|[k' x'] m IH]; csimpl.
  - by intros _ ?%elem_of_nil.
  - rewrite NoDup_cons, elem_of_cons. intros [Hnin Hnd] [Heq|Hin].
    + simplify_eq. by rewrite decide_True.
    + rewrite decide_False; [by apply IH|].
      intros ->. apply Hnin. apply list_elem_of_fmap. by exists (k', x).
Qed.

(** *** The lockstep of the two maps *)

Lemma lockstep_length c :
  lockstep c → length (entries c) = length (expirationTimes c).
Proof.
  intros [Hk _]. by rewrite <- (length_fmap fst (entries c)), Hk, length_fmap.
Qed.

Lemma lockstep_has c k :
  lockstep c → jsmap_has k (entries c) = jsmap_has k (expirationTimes c).
Proof.
  intros [Hk _]. destruct (jsmap_has k (expirationTimes c)) eqn:Hx.
  - apply jsmap_has_true. rewrite Hk. by apply jsmap_has_true.
  - apply jsmap_has_false. rewrite Hk. by apply jsmap_has_false.
Qed.

Lemma lockstep_start c : lockstep c → lockstep (startExpirationInterval c).
Proof.
  unfold startExpirationInterval. destruct (expirationInterval c); [done|].
  by destruct (_ && _).
Qed.

Lemma lockstep_delete_both key c :
  lockstep c →
  lockstep (with_entries (jsmap_delete key (entries c))
              (with_expirationTimes (jsmap_delete key (expirationTimes c)) c)).
Proof.
  intros [Hk Hnd]. unfold lockstep; simpl.
  rewrite !jsmap_keys_delete, Hk. split; [done|].
  apply NoDup_keys_delete. by rewrite <- Hk.
Qed.

Lemma lockstep_new itv : lockstep (new (K:=K) (V:=V) itv).
Proof.
  unfold new; simpl. destruct (default 0 itv >? 0).
  - apply lockstep_start. split; [done | constructor].
  - split; [done | constructor].
Qed.

Lemma lockstep_set key data ttl now c :
  lockstep c → lockstep (set key data ttl now c).
Proof.
  intros [Hk Hnd]. unfold set. apply lockstep_start.
  unfold lockstep; simpl. rewrite !jsmap_keys_set, Hk. split; [done|].
  apply NoDup_keys_set. by rewrite <- Hk.
Qed.

Lemma lockstep_get key now c : lockstep c → lockstep (get key now c).2.
Proof.
  intros Hl. unfold get. destruct (_ && _); simpl; [|done].
  by apply lockstep_delete_both.
Qed.

Lemma lockstep_delete key c : lockstep c → lockstep (delete key c).2.
Proof. intros Hl. by apply (lockstep_delete_both key c). Qed.

Lemma lockstep_clear c : lockstep (clear c).
Proof. split; [done | constructor]. Qed.

Lemma lockstep_sweep_entry now c (x : K * Z) :
  lockstep c → lockstep (sweep_entry now c x).
Proof.
  intros Hl. destruct x as [key ttl]; simpl.
  destruct (now >? ttl); [by apply lockstep_delete_both | done].
Qed.

Lemma lockstep_sweep_fold now (l : list (K * Z)) c :
  lockstep c → lockstep (foldl (sweep_entry now) c l).
Proof.
  revert c. induction l as [|x l IH]; intros c Hl; simpl; [done|].
  by apply IH, lockstep_sweep_entry.
Qed.

Lemma lockstep_sweep now c : lockstep c → lockstep (sweep now c).
Proof.
  intros Hl. unfold sweep.
  pose proof (lockstep_sweep_fold now (expirationTimes c) c Hl) as Hf.
  by destruct (_ =? 0).
Qed.

Lemma lockstep_tick now c : lockstep c → lockstep (tick now c).
Proof.
  intros Hl. unfold tick.
  destruct (expirationInterval c); [by apply lockstep_sweep | done].
Qed.

Lemma lockstep_step c (o : op K V) : lockstep c → lockstep (step c o).
Proof.
  intros Hl. destruct o as [key data ttl now|key now|key| |now]; simpl.
  - by apply lockstep_set.
  - by apply lockstep_get.
  - by apply lockstep_delete.
  - apply lockstep_clear.
  - by apply lockstep_tick.
Qed.

Lemma lockstep_run (ops : list (op K V)) c :
  lockstep c → lockstep (run ops c).
Proof.
  unfold run. revert c.
  induction ops as [|o ops IH]; intros c Hl; simpl; [done|].
  by apply IH, lockstep_step.
Qed.

(** *** The sweep *)

Lemma sweep_fold_handle now (l : list (K * Z)) c :
  expirationInterval (foldl (sweep_entry now) c l) = expirationInterval c.
Proof.
  revert c. induction l as [|[key ttl] l IH]; intros c; simpl; [done|].
  rewrite IH. by destruct (now >? ttl).
Qed.

(** The sweep only deletes: what it leaves was there, unchanged. *)
Lemma sweep_fold_get_Some now (l : list (K * Z)) c k e :
  jsmap_get k (expirationTimes (foldl (sweep_entry now) c l)) = Some e →
  jsmap_get k (expirationTimes c) = Some e.
Proof.
  revert c. induction l as [|[key ttl] l IH]; intros c; simpl; [done|].
  intros Hg%IH. destruct (now >? ttl); simpl in Hg; [|done].
  by eapply jsmap_get_delete_Some.
Qed.

(** The sweep keeps a key none of whose visited timestamps has passed. *)
Lemma sweep_fold_keeps now (l : list (K * Z)) c k :
  (∀ e, (k, e) ∈ l → now ≤ e) →
  jsmap_get k (expirationTimes (foldl (sweep_entry now) c l))
    = jsmap_get k (expirationTimes c)
  ∧ jsmap_get k (entries (foldl (sweep_entry now) c l))
    = jsmap_get k (entries c).
Proof.
  revert c. induction l as [|[key ttl] l IH]; intros c Hall; simpl; [done|].
  destruct (IH (if now >? ttl
                then with_entries (jsmap_delete key (entries c))
                       (with_expirationTimes
                          (jsmap_delete key (expirationTimes c)) c)
                else c)) as [IH1 IH2].
  { intros e He. apply Hall. apply elem_of_cons. by right. }
  rewrite IH1, IH2. destruct (Z.gtb_spec now ttl) as [Hgt|]; simpl; [|done].
  assert (k ≠ key) as Hne.
  { intros ->. specialize (Hall ttl). rewrite elem_of_cons in Hall.
    assert (now ≤ ttl) by (apply Hall; by left). lia. }
  by rewrite !jsmap_get_delete_ne.
Qed.

Lemma tick_get_Some now c k e :
  jsmap_get k (expirationTimes (tick now c)) = Some e →
  jsmap_get k (expirationTimes c) = Some e.
Proof.
  unfold tick, sweep. destruct (expirationInterval c); [|done].
  intros Hg. apply (sweep_fold_get_Some now (expirationTimes c)).
  by destruct (_ =? 0).
Qed.

Lemma tick_keeps now c k e :
  lockstep c → jsmap_get k (expirationTimes c) = Some e → now ≤ e →
  jsmap_get k (expirationTimes (tick now c)) = Some e
  ∧ jsmap_get k (entries (tick now c)) = jsmap_get k (entries c).
Proof.
  intros [Hk Hnd] Hg Hle. unfold tick, sweep.
  destruct (expirationInterval c); [|done].
  destruct (sweep_fold_keeps now (expirationTimes c) c k) as [H1 H2].
  { intros e' Hin. apply jsmap_elem_get in Hin; [|by rewrite <- Hk].
    congruence. }
  rewrite <- Hg, <- H1, <- H2. by destruct (_ =? 0).
Qed.

Lemma ticks_lockstep (ts : list Z) c : lockstep c → lockstep (ticks ts c).
Proof.
  unfold ticks. revert c.
  induction ts as [|s ts IH]; intros c Hl; simpl; [done|].
  by apply IH, lockstep_tick.
Qed.

Lemma ticks_get_Some (ts : list Z) c k e :
  jsmap_get k (expirationTimes (ticks ts c)) = Some e →
  jsmap_get k (expirationTimes c) = Some e.
Proof.
  unfold ticks. revert c.
  induction ts as [|s ts IH]; intros c; simpl; [done|].
  intros Hg%IH. by eapply tick_get_Some.
Qed.

Lemma ticks_keeps (ts : list Z) c k e :
  lockstep c → jsmap_get k (expirationTimes c) = Some e →
  Forall (λ s, s ≤ e) ts →
  jsmap_get k (expirationTimes (ticks ts c)) = Some e
  ∧ jsmap_get k (entries (ticks ts c)) = jsmap_get k (entries c).
Proof.
  unfold ticks. revert c.
  induction ts as [|s ts IH]; intros c Hl Hg Hall; simpl; [done|].
  apply Forall_cons in Hall as [Hs Hall].
  destruct (tick_keeps s c k e Hl Hg Hs) as [H1 H2].
  destruct (IH (tick s c)) as [H3 H4]; [by apply lockstep_tick|done|done|].
  by rewrite H3, H4, H2.
Qed.
End ttl_facts.

Section ttl_read.
Context {K V : Type} `{!EqDecision K}.
Implicit Types (k key : K) (v data : V) (now t e : Z) (ttl : option Z).
Implicit Types (c : CacheTTL.t K V).
Import CacheTTL.

Lemma start_entries c : entries (startExpirationInterval c) = entries c.
Proof.
  unfold startExpirationInterval. destruct (expirationInterval c); [done|].
  by destruct (_ && _).
Qed.

Lemma start_expirationTimes c :
  expirationTimes (startExpirationInterval c) = expirationTimes c.
Proof.
  unfold startExpirationInterval. destruct (expirationInterval c); [done|].
  by destruct (_ && _).
Qed.

Lemma set_entries key data ttl now c :
  entries (set key data ttl now c) = jsmap_set key data (entries c).
Proof. unfold set. by rewrite start_entries. Qed.

Lemma set_expirationTimes key data ttl now c :
  expirationTimes (set key data ttl now c)
  = jsmap_set key (now + default (interval c) ttl) (expirationTimes c).
Proof. unfold set. by rewrite start_expirationTimes. Qed.

(** [get] on a key that is not tracked, or whose timestamp is 0 or has
    not passed, is a plain read. *)
Lemma get_untracked key now c :
  jsmap_get key (expirationTimes c) = None →
  get key now c = (jsmap_get key (entries c), c).
Proof. intros Hx. unfold get. by rewrite Hx. Qed.

Lemma get_zero key now c :
  jsmap_get key (expirationTimes c) = Some 0 →
  get key now c = (jsmap_get key (entries c), c).
Proof. intros Hx. unfold get. by rewrite Hx. Qed.

Lemma get_not_passed key now e c :
  jsmap_get key (expirationTimes c) = Some e → now ≤ e →
  get key now c = (jsmap_get key (entries c), c).
Proof.
  intros Hx Hle. unfold get. rewrite Hx; simpl.
  destruct (Z.gtb_spec now e); [lia|]. by rewrite andb_false_r.
Qed.

Lemma get_passed key now e c :
  jsmap_get key (expirationTimes c) = Some e → e ≠ 0 → e < now →
  (get key now c).1 = None.
Proof.
  intros Hx Hnz Hlt. unfold get. rewrite Hx; simpl.
  destruct (Z.eqb_spec e 0); [done|].
  by destruct (Z.gtb_spec now e); [|lia].
Qed.

(** Reading [key] at [t] after [set] at [now] and timer firings at [ts]. *)
Lemma get_after_set_ticks key data ttl now (ts : list Z) t c :
  lockstep c →
  let e := now + default (interval c) ttl in
  let c' := ticks ts (set key data ttl now c) in
  (t ≤ e → Forall (λ s, s ≤ t) ts → (get key t c').1 = Some data)
  ∧ (e < t → e ≠ 0 → (get key t c').1 = None).
Proof.
  intros Hl e c'.
  assert (lockstep (set key data ttl now c)) as Hl1 by by apply lockstep_set.
  assert (jsmap_get key (expirationTimes (set key data ttl now c)) = Some e)
    as Hx by (rewrite set_expirationTimes; apply jsmap_get_set_eq).
  assert (jsmap_get key (entries (set key data ttl now c)) = Some data)
    as Hv by (rewrite set_entries; apply jsmap_get_set_eq).
  split.
  - intros Hle Hts.
    destruct (ticks_keeps ts _ key e Hl1 Hx) as [Hx' Hv'].
    { eapply Forall_impl; [exact Hts|]. simpl. intros s Hs. lia. }
    fold c' in Hx', Hv'.
    by rewrite (get_not_passed key t e c' Hx' Hle), Hv'.
  - intros Hlt Hnz.
    destruct (jsmap_get key (expirationTimes c')) as [e'|] eqn:Hx'.
    + apply ticks_get_Some in Hx' as Hx0.
      assert (e' = e) as -> by congruence.
      by apply (get_passed key t e c').
    + rewrite (get_untracked key t c' Hx'); simpl.
      assert (lockstep c') as [Hk _] by by apply ticks_lockstep.
      apply jsmap_get_None. rewrite Hk. by apply jsmap_get_None.
Qed.

(** A negative [ttl] whose timestamp is not 0 reads as absent from the
    moment it is stored. *)
Lemma get_after_set_negative key data (d : Z) now (ts : list Z) t c :
  lockstep c → d < 0 → now + d ≠ 0 → now ≤ t →
  (get key t (ticks ts (set key data (Some d) now c))).1 = None.
Proof.
  intros Hl Hd Hnz Hle.
  apply (get_after_set_ticks key data (Some d) now ts t c Hl); simpl; [lia|done].
Qed.
End ttl_read.

(** * The claims *)

Section claims.
Context {K V : Type} `{!EqDecision K}.

(** C1 (as amended): [clear()], [delete()] and the lazy expiry of [get()]
    leave the sweep handle as it was, also when they empty the expiry
    index.  A scheduled sweep is cancelled by its own callback, exactly
    when the expiry index is empty after that firing's scan; so the first
    firing after a [clear()] cancels it. *)
Theorem C1_sweep_cancelled_by_its_own_tick (c : CacheTTL.t K V) :
  CacheTTL.expirationTimes (CacheTTL.clear c) = []
  ∧ CacheTTL.expirationInterval (CacheTTL.clear c)
    = CacheTTL.expirationInterval c
  ∧ (∀ key, CacheTTL.expirationInterval (CacheTTL.delete key c).2
            = CacheTTL.expirationInterval c)
  ∧ (∀ key now, CacheTTL.expirationInterval (CacheTTL.get key now c).2
                = CacheTTL.expirationInterval c)
  ∧ (∀ now, CacheTTL.expirationInterval (CacheTTL.tick now c)
            = if jsmap_size (CacheTTL.expirationTimes (CacheTTL.tick now c)) =? 0
              then None else CacheTTL.expirationInterval c)
  ∧ (∀ now, CacheTTL.expirationInterval
              (CacheTTL.tick now (CacheTTL.clear c)) = None).
Proof.
  split_and!.
  - done.
  - done.
  - done.
  - intros key now. unfold CacheTTL.get. destruct (_ && _); reflexivity.
  - intros now. unfold CacheTTL.tick.
    destruct (CacheTTL.expirationInterval c) as [h|] eqn:Hh.
    + unfold CacheTTL.sweep.
      destruct (jsmap_size _ =? 0) eqn:Hz; simpl.
      * by rewrite Hz.
      * by rewrite Hz, sweep_fold_handle.
    + rewrite Hh. by destruct (_ =? 0).
  - intros now. unfold CacheTTL.tick; simpl.
    by destruct (CacheTTL.expirationInterval c) eqn:Hh.
Qed.

(** C2 (as amended): for [set(k, v, ttl)] with [ttl > 0] on any cache the
    operations can reach, and [e = now + ttl], [get(k)] at a clock reading
    [t] returns [v] when [t <= e], and returns absent when [t > e] and
    [e] is not 0; the sweep may have fired any number of times in between
    (at clock readings up to [t]). *)
Theorem C2_get_exact_up_to_expiry
    (itv : option Z) (ops : list (CacheTTL.op K V))
    (k : K) (v : V) (ttl now : Z) (ts : list Z) (t : Z) :
  0 < ttl →
  Forall (λ s, s ≤ t) ts →
  let c := CacheTTL.run ops (CacheTTL.new itv) in
  let c' := CacheTTL.ticks ts (CacheTTL.set k v (Some ttl) now c) in
  (t ≤ now + ttl → (CacheTTL.get k t c').1 = Some v)
  ∧ (now + ttl < t → now + ttl ≠ 0 → (CacheTTL.get k t c').1 = None).
Proof.
  intros _ Hts c c'.
  assert (CacheTTL.lockstep c) as Hl
    by apply lockstep_run, lockstep_new.
  destruct (get_after_set_ticks k v (Some ttl) now ts t c Hl) as [H1 H2].
  split; [intros Hle; by apply H1 | exact H2].
Qed.

(** C4: with capacity [C >= 1], inserting [C + 1] distinct keys in order
    into the empty cache leaves exactly the last [C] pairs, in insertion
    order: the first key is absent, every other one is present.  And each
    [set] at or over capacity removes the first entry in iteration order,
    and only that one, before it stores its pair. *)
Theorem C4_overflow_evicts_first_key (C : Z) (kvs : list (K * V)) :
  1 ≤ C → NoDup (kvs.*1) → Z.of_nat (length kvs) = C + 1 →
  let c := CacheLRU.set_all kvs (CacheLRU.new (Some C)) in
  CacheLRU.entries c = tail kvs
  ∧ (∀ k1, head (kvs.*1) = Some k1 →
           jsmap_has k1 (CacheLRU.entries c) = false)
  ∧ (∀ k, k ∈ tail (kvs.*1) → jsmap_has k (CacheLRU.entries c) = true)
  ∧ (∀ (c0 : CacheLRU.t K V) key value k0 v0 rest,
       CacheLRU.capacity c0 ≤ jsmap_size (CacheLRU.entries c0) →
       NoDup ((CacheLRU.entries c0).*1) →
       CacheLRU.entries c0 = (k0, v0) :: rest →
       CacheLRU.entries (CacheLRU.set key value c0)
       = jsmap_set key value rest).
Proof.
  intros HC Hnd Hlen c.
  assert (CacheLRU.entries c = tail kvs) as Hent.
  { subst c. destruct kvs as [|[k v] kvs _] using rev_ind;
      [simpl in Hlen; lia|].
    rewrite fmap_app in Hnd. apply NoDup_app in Hnd as (Hnd & Hfresh & _).
    rewrite length_app in Hlen; simpl in Hlen.
    destruct (lru_set_all_fits kvs C) as [He Hc]; [done|lia|].
    rewrite lru_set_all_snoc.
    change ((k, v).1) with k. change ((k, v).2) with v.
    destruct kvs as [|[k1 v1] rest]; [simpl in Hlen; lia|].
    rewrite (lru_set_full k v _ k1 v1 rest); rewrite ?He, ?Hc; try done.
    - simpl. apply jsmap_set_fresh. intros Hin. apply (Hfresh k).
      + csimpl. apply elem_of_cons. by right.
      + csimpl. apply elem_of_cons. by left.
    - unfold jsmap_size. lia. }
  split; [done|]. rewrite Hent. repeat split.
  - intros k1 Hhead. apply jsmap_has_false.
    destruct kvs as [|[k v] kvs]; csimpl in *; [done|].
    simplify_eq. by apply NoDup_cons in Hnd as [? _].
  - intros k Hin. apply jsmap_has_true.
    by destruct kvs as [|[? ?] kvs].
  - intros c0 key value k0 v0 rest. apply lru_set_full.
Qed.
(** C5: in every state that the constructor, [set], [get], [delete],
    [clear] and firings of the sweep can reach, the value store and the
    expiry index hold the same keys (in the same order, each once), so
    they have the same size. *)
Theorem C5_values_and_expiry_index_in_lockstep
    (itv : option Z) (ops : list (CacheTTL.op K V)) :
  let c := CacheTTL.run ops (CacheTTL.new itv) in
  (CacheTTL.entries c).*1 = (CacheTTL.expirationTimes c).*1
  ∧ NoDup ((CacheTTL.entries c).*1)
  ∧ (∀ k, k ∈ (CacheTTL.entries c).*1 ↔ k ∈ (CacheTTL.expirationTimes c).*1)
  ∧ (∀ k, jsmap_has k (CacheTTL.entries c)
          = jsmap_has k (CacheTTL.expirationTimes c))
  ∧ jsmap_size (CacheTTL.entries c) = jsmap_size (CacheTTL.expirationTimes c).
Proof.
  intros c.
  assert (CacheTTL.lockstep c) as Hl by apply lockstep_run, lockstep_new.
  split_and!.
  - apply Hl.
  - apply Hl.
  - intros k. by rewrite (proj1 Hl).
  - intros k. by apply lockstep_has.
  - unfold jsmap_size. by rewrite lockstep_length.
Qed.

(** C6: with capacity 0, [set] on the empty cache passes the capacity
    test, its eviction finds no first key and changes nothing, and the
    pair is stored: the cache holds one entry, one more than its capacity.
    It stays so: in every state the operations can reach the cache holds
    at most one entry, and after every [set] exactly one. *)
Theorem C6_capacity_zero_holds_one_entry (k : K) (v : V) :
  let c0 := CacheLRU.new (K:=K) (V:=V) (Some 0) in
  (jsmap_size (CacheLRU.entries c0) >=? CacheLRU.capacity c0) = true
  ∧ CacheLRU.evict_first (CacheLRU.entries c0) = CacheLRU.entries c0
  ∧ CacheLRU.entries (CacheLRU.set k v c0) = [(k, v)]
  ∧ jsmap_size (CacheLRU.entries (CacheLRU.set k v c0))
    = CacheLRU.capacity (CacheLRU.set k v c0) + 1
  ∧ (∀ (ops : list (CacheLRU.op K V)) k' v',
       jsmap_size (CacheLRU.entries
                     (CacheLRU.set k' v' (CacheLRU.run ops c0))) = 1
       ∧ CacheLRU.capacity (CacheLRU.set k' v' (CacheLRU.run ops c0)) = 0).
Proof.
  intros c0. split_and!; try done.
  intros ops k' v'. split.
  - apply lru_zero_set_size; [by rewrite lru_capacity_run|].
    by apply lru_zero_size_run.
  - simpl. by rewrite lru_capacity_run.
Qed.

(** C8: [set(k, v)] followed at once by [get(k)] returns [v]: in CacheTTL
    whenever the clock reading of the [get] is not past [now + ttl] (with
    [ttl] the argument, or the interval when it is left out); in CacheLRU
    always, since [set] stores its pair after the eviction. *)
Theorem C8_set_then_get_round_trip :
  (∀ (c : CacheTTL.t K V) k v ttl now t,
     t ≤ now + default (CacheTTL.interval c) ttl →
     (CacheTTL.get k t (CacheTTL.set k v ttl now c)).1 = Some v)
  ∧ (∀ (c : CacheLRU.t K V) k v,
       (CacheLRU.get k (CacheLRU.set k v c)).1 = Some v).
Proof.
  split.
  - intros c k v ttl now t Hle.
    rewrite (get_not_passed k t (now + default (CacheTTL.interval c) ttl));
      [|by rewrite set_expirationTimes, jsmap_get_set_eq|done].
    simpl. by rewrite set_entries, jsmap_get_set_eq.
  - intros c k v. apply lru_get_set.
Qed.

(** C9: an entry whose stored expiry timestamp is 0 is not removed by
    [get], whatever the clock reads: [get] returns the stored value and
    leaves the cache as it was.  Such a timestamp is what [set] stores
    when [now + ttl = 0]. *)
Theorem C9_zero_timestamp_never_expires_lazily
    (c : CacheTTL.t K V) (k : K) (v : V) (t : Z) :
  jsmap_get k (CacheTTL.expirationTimes c) = Some 0 →
  jsmap_get k (CacheTTL.entries c) = Some v →
  CacheTTL.get k t c = (Some v, c)
  ∧ (∀ (c0 : CacheTTL.t K V) v0 ttl now, now + ttl = 0 →
       jsmap_get k (CacheTTL.expirationTimes
                      (CacheTTL.set k v0 (Some ttl) now c0)) = Some 0
       ∧ CacheTTL.get k t (CacheTTL.set k v0 (Some ttl) now c0)
         = (Some v0, CacheTTL.set k v0 (Some ttl) now c0)).
Proof.
  intros Hx Hv. split.
  - by rewrite (get_zero k t c Hx), Hv.
  - intros c0 v0 ttl now Hz.
    assert (jsmap_get k (CacheTTL.expirationTimes
               (CacheTTL.set k v0 (Some ttl) now c0)) = Some 0) as Hx0.
    { rewrite set_expirationTimes; simpl. rewrite Hz.
      apply jsmap_get_set_eq. }
    split; [done|].
    by rewrite (get_zero k t _ Hx0), set_entries, jsmap_get_set_eq.
Qed.

(** C10: with capacity [C >= 1], a cache that holds at most [C] entries
    holds at most [C] entries after any run of [get], [set], [delete] and
    [clear]; the capacity itself never changes. *)
Theorem C10_entry_count_within_capacity
    (C : Z) (ops : list (CacheLRU.op K V)) (c : CacheLRU.t K V) :
  1 ≤ C → CacheLRU.capacity c = C → jsmap_size (CacheLRU.entries c) ≤ C →
  jsmap_size (CacheLRU.entries (CacheLRU.run ops c)) ≤ C
  ∧ CacheLRU.capacity (CacheLRU.run ops c) = C.
Proof.
  intros HC. unfold CacheLRU.run. revert c.
  induction ops as [|o ops IH]; intros c Hcap Hsz; simpl; [done|].
  apply IH; [by rewrite lru_capacity_step | by apply lru_size_step].
Qed.
End claims.

(** * The claims on concrete caches (string keys, integer values) *)

Local Open Scope string_scope.
Local Open Scope Z_scope.

(** C1, counterexample: a cache with interval 10 that tracks one key has its
    sweep scheduled; [clear()] empties the expiry index, and so does
    [delete] of that key, yet the sweep stays scheduled. *)
Lemma C1_clear_and_delete_leave_sweep_scheduled :
  CacheTTL.expirationInterval
    (CacheTTL.set "a" 1 (Some 50) 0 (CacheTTL.new (Some 10)))
  = Some {| CacheTTL.period := 10 |}
  ∧ CacheTTL.expirationTimes
      (CacheTTL.clear (CacheTTL.set "a" 1 (Some 50) 0 (CacheTTL.new (Some 10))))
    = []
  ∧ CacheTTL.expirationInterval
      (CacheTTL.clear (CacheTTL.set "a" 1 (Some 50) 0 (CacheTTL.new (Some 10))))
    ≠ None
  ∧ CacheTTL.expirationTimes
      (CacheTTL.delete "a"
         (CacheTTL.set "a" 1 (Some 50) 0 (CacheTTL.new (Some 10)))).2
    = []
  ∧ CacheTTL.expirationInterval
      (CacheTTL.delete "a"
         (CacheTTL.set "a" 1 (Some 50) 0 (CacheTTL.new (Some 10)))).2
    ≠ None.
Proof. by vm_compute. Qed.

(** C2, counterexample: [set("a", 1, 50)] at clock reading 0 gives the
    expiry timestamp 50; [get("a")] at clock reading 50, which is at the
    timestamp, returns 1 and not absent. *)
Lemma C2_get_at_the_expiry_timestamp_returns_value :
  0 < 50 ∧ 0 + 50 ≤ 50
  ∧ (CacheTTL.get "a" 50
       (CacheTTL.set "a" 1 (Some 50) 0 (CacheTTL.new None))).1 = Some 1
  ∧ (CacheTTL.get "a" 50
       (CacheTTL.set "a" 1 (Some 50) 0 (CacheTTL.new None))).1 ≠ None.
Proof. by vm_compute. Qed.

(** C2, witness: interval 10, [set("a", 1, 50)] at 0, the sweep fires at 10
    and 20; [get("a")] returns 1 at 30 and at 50, and absent at 51 (here
    after a further firing at 40). *)
Lemma C2_get_exact_up_to_expiry_witness :
  (CacheTTL.get "a" 30
     (CacheTTL.ticks [10; 20]
        (CacheTTL.set "a" 1 (Some 50) 0
           (CacheTTL.run [] (CacheTTL.new (Some 10)))))).1 = Some 1
  ∧ (CacheTTL.get "a" 50
       (CacheTTL.ticks [10; 20]
          (CacheTTL.set "a" 1 (Some 50) 0
             (CacheTTL.run [] (CacheTTL.new (Some 10)))))).1 = Some 1
  ∧ (CacheTTL.get "a" 51
       (CacheTTL.ticks [10; 20; 40]
          (CacheTTL.set "a" 1 (Some 50) 0
             (CacheTTL.run [] (CacheTTL.new (Some 10)))))).1 = None.
Proof.
  split_and!.
  - apply (C2_get_exact_up_to_expiry (Some 10) [] "a" 1 50 0 [10; 20] 30);
      [lia | rewrite !Forall_cons; split_and!; [lia | lia | constructor] | lia].
  - apply (C2_get_exact_up_to_expiry (Some 10) [] "a" 1 50 0 [10; 20] 50);
      [lia | rewrite !Forall_cons; split_and!; [lia | lia | constructor] | lia].
  - apply (C2_get_exact_up_to_expiry (Some 10) [] "a" 1 50 0 [10; 20; 40] 51);
      [lia | rewrite !Forall_cons; split_and!; [lia | lia | lia | constructor]
      | lia | lia].
Defined.

(** C3: capacity 2; set a 1; set b 2; get a; set c 3 leaves exactly a:1 and
    c:3, in that order; the get returned 1 and moved a behind b, so b was
    the first key when the third set evicted. *)
Theorem C3_lru_scenario :
  CacheLRU.entries lru_scenario = [("a", 1); ("c", 3)]
  ∧ jsmap_has "b" (CacheLRU.entries lru_scenario) = false
  ∧ CacheLRU.get "a"
      (CacheLRU.set "b" 2 (CacheLRU.set "a" 1 (CacheLRU.new (Some 2))))
    = (Some 1, {| CacheLRU.entries := [("b", 2); ("a", 1)];
                  CacheLRU.capacity := 2 |}).
Proof. by vm_compute. Qed.

(** C4, witness: capacity 2 and the keys a, b, c. *)
Lemma C4_overflow_evicts_first_key_witness :
  CacheLRU.entries
    (CacheLRU.set_all [("a", 1); ("b", 2); ("c", 3)] (CacheLRU.new (Some 2)))
  = [("b", 2); ("c", 3)]
  ∧ jsmap_has "a"
      (CacheLRU.entries
         (CacheLRU.set_all [("a", 1); ("b", 2); ("c", 3)]
            (CacheLRU.new (Some 2)))) = false
  ∧ CacheLRU.entries
      (CacheLRU.set "c" 3
         {| CacheLRU.entries := [("a", 1); ("b", 2)]; CacheLRU.capacity := 2 |})
    = jsmap_set "c" 3 [("b", 2)].
Proof.
  assert (NoDup ([("a", 1); ("b", 2); ("c", 3)].*1)) as Hnd
    by (apply (bool_decide_unpack _); vm_compute; exact I).
  assert (NoDup ([("a", 1); ("b", 2)].*1)) as Hnd2
    by (apply (bool_decide_unpack _); vm_compute; exact I).
  assert (1 ≤ 2) as Hcap by lia.
  destruct (C4_overflow_evicts_first_key 2 [("a", 1); ("b", 2); ("c", 3)]
              Hcap Hnd eq_refl) as (Hent & Hfirst & _ & Hset).
  split_and!.
  - exact Hent.
  - apply Hfirst. reflexivity.
  - apply (Hset _ "c" 3 "a" 1 [("b", 2)]);
      [unfold jsmap_size; simpl; lia | exact Hnd2 | reflexivity].
Defined.

(** C7, at the input where the code departs from it: at clock reading 1000,
    [set("a", 1, -1000)] stores the timestamp 0, which is in the past; yet
    [get("a")] at clock reading 2000 returns 1 and leaves the entry in
    place.  The sweep, which compares without the truthiness test, removes
    the same entry when it fires at 2000. *)
Theorem C7_negative_ttl_with_timestamp_zero_is_still_read :
  -1000 < 0
  ∧ CacheTTL.expirationTimes
      (CacheTTL.set "a" 1 (Some (-1000)) 1000 (CacheTTL.new None))
    = [("a", 0)]
  ∧ 0 < 1000
  ∧ CacheTTL.get "a" 2000
      (CacheTTL.set "a" 1 (Some (-1000)) 1000 (CacheTTL.new None))
    = (Some 1, CacheTTL.set "a" 1 (Some (-1000)) 1000 (CacheTTL.new None))
  ∧ CacheTTL.entries
      (CacheTTL.tick 2000
         (CacheTTL.set "a" 1 (Some (-1000)) 1000 (CacheTTL.new (Some 10))))
    = [].
Proof. by vm_compute. Qed.

(** C8, witness: [set("a", 1, 50)] at 0 and [get("a")] at 10 in CacheTTL. *)
Lemma C8_set_then_get_round_trip_witness :
  (CacheTTL.get "a" 10
     (CacheTTL.set "a" 1 (Some 50) 0 (CacheTTL.new None))).1 = Some 1.
Proof.
  apply (proj1 (C8_set_then_get_round_trip (K:=string) (V:=Z))).
  simpl. lia.
Defined.

(** C9, witness: the timestamp 0 stored by [set("a", 1, -1000)] at clock
    reading 1000, read at clock reading 5000. *)
Lemma C9_zero_timestamp_never_expires_lazily_witness :
  CacheTTL.get "a" 5000
    (CacheTTL.set "a" 1 (Some (-1000)) 1000 (CacheTTL.new None))
  = (Some 1, CacheTTL.set "a" 1 (Some (-1000)) 1000 (CacheTTL.new None)).
Proof.
  apply (C9_zero_timestamp_never_expires_lazily
           (CacheTTL.set "a" 1 (Some (-1000)) 1000 (CacheTTL.new None))
           "a" 1 5000); reflexivity.
Defined.

(** C10, witness: capacity 2 and a run of all four operations. *)
Lemma C10_entry_count_within_capacity_witness :
  jsmap_size
    (CacheLRU.entries
       (CacheLRU.run
          [CacheLRU.Set_ "a" 1; CacheLRU.Set_ "b" 2; CacheLRU.Set_ "c" 3;
           CacheLRU.Get "b"; CacheLRU.Delete "c"; CacheLRU.Set_ "d" 4;
           CacheLRU.Clear; CacheLRU.Set_ "e" 5]
          (CacheLRU.new (Some 2)))) ≤ 2.
Proof.
  apply (C10_entry_count_within_capacity 2 _ (CacheLRU.new (Some 2)));
    [lia | reflexivity | unfold jsmap_size; simpl; lia].
Defined.

(** * Further properties of the two caches *)

Local Close Scope string_scope.

(** ** More facts about the built-in Map *)

Section jsmap_more.
Context {K V : Type} `{!EqDecision K}.
Implicit Types (k : K) (v : V) (m : list (K * V)).

Lemma jsmap_not_in_delete k m : k ∉ (jsmap_delete k m).*1.
Proof. rewrite jsmap_keys_delete, elem_of_keys_delete. naive_solver. Qed.

Lemma jsmap_delete_app k m m' :
  jsmap_delete k (m ++ m') = jsmap_delete k m ++ jsmap_delete k m'.
Proof.
  induction m as [|[k' v'] m IH]; simpl; [done|].
  case_decide; simpl; by rewrite IH.
Qed.

Lemma jsmap_delete_delete k m :
  jsmap_delete k (jsmap_delete k m) = jsmap_delete k m.
Proof. apply jsmap_delete_fresh, jsmap_not_in_delete. Qed.

Lemma jsmap_get_app_fresh k m m' :
  k ∉ m.*1 → jsmap_get k (m ++ m') = jsmap_get k m'.
Proof.
  induction m as [|[k' v'] m IH]; csimpl; [done|].
  rewrite not_elem_of_cons. intros [Hne Hnin].
  rewrite decide_False by done. by apply IH.
Qed.

Lemma jsmap_get_app_Some k v m m' :
  jsmap_get k m = Some v → jsmap_get k (m ++ m') = Some v.
Proof.
  induction m as [|[k' v'] m IH]; simpl; [done|].
  case_decide; [done|]. apply IH.
Qed.

(** Overwriting a key that is present keeps every key where it is. *)
Lemma jsmap_keys_set_present k v m : k ∈ m.*1 → (jsmap_set k v m).*1 = m.*1.
Proof.
  induction m as [|[k' v'] m IH]; csimpl.
  - by intros ?%elem_of_nil.
  - rewrite elem_of_cons. case_decide; csimpl; [by subst|].
    intros [?|Hin]; [done|]. by rewrite IH.
Qed.

(** With each key held once, [delete] of a key that is present removes one
    entry. *)
Lemma jsmap_length_delete_NoDup k m :
  NoDup (m.*1) → k ∈ m.*1 → S (length (jsmap_delete k m)) = length m.
Proof.
  induction m as [|[k' v'] m IH]; csimpl.
  - by intros _ ?%elem_of_nil.
  - rewrite NoDup_cons, elem_of_cons. intros [Hnin Hnd] Hin.
    case_decide as Heq; simpl.
    + subst. by rewrite jsmap_delete_fresh.
    + destruct Hin as [?|Hin]; [done|]. by rewrite IH.
Qed.
End jsmap_more.

(** ** More about CacheLRU *)

Section lru_more.
Context {K V : Type} `{!EqDecision K}.
Implicit Types (k key : K) (v value : V) (m kvs rest : list (K * V)).
Implicit Types (c : CacheLRU.t K V).
Import CacheLRU.

Lemma lru_capacity_set_all kvs c : capacity (set_all kvs c) = capacity c.
Proof.
  unfold set_all. revert c.
  induction kvs as [|kv kvs IH]; intros c; simpl; [done|]. by rewrite IH.
Qed.

Lemma lru_get_eq key c :
  get key c =
    match jsmap_get key (entries c) with
    | Some x =>
        (Some x, {| entries := jsmap_delete key (entries c) ++ [(key, x)];
                    capacity := capacity c |})
    | None => (None, c)
    end.
Proof.
  unfold get, jsmap_has. destruct (jsmap_get key (entries c)) as [x|]; simpl;
    [|done].
  by rewrite jsmap_set_fresh by apply jsmap_not_in_delete.
Qed.

(** X1: [get] on a key that is absent returns absent and changes nothing; on a
    key that is present it returns the value and moves the entry behind all
    the others, which keep their order. *)
Theorem lru_get_moves_entry_to_the_end key c :
  (jsmap_get key (entries c) = None ∧ get key c = (None, c))
  ∨ (∃ x, jsmap_get key (entries c) = Some x
          ∧ get key c
            = (Some x,
               {| entries := jsmap_delete key (entries c) ++ [(key, x)];
                  capacity := capacity c |})).
Proof.
  rewrite lru_get_eq. destruct (jsmap_get key (entries c)) as [x|]; eauto.
Qed.

(** X2: A second [get] of the same key right after the first returns the same
    value and leaves the cache as the first left it. *)
Theorem lru_get_twice key c : get key (get key c).2 = get key c.
Proof.
  rewrite (lru_get_eq key c).
  destruct (jsmap_get key (entries c)) as [x|] eqn:Hg; simpl.
  - rewrite lru_get_eq; simpl.
    rewrite jsmap_get_app_fresh by apply jsmap_not_in_delete. simpl.
    rewrite decide_True by done.
    rewrite jsmap_delete_app, jsmap_delete_delete. simpl.
    rewrite decide_True by done. by rewrite app_nil_r.
  - rewrite lru_get_eq. by rewrite Hg.
Qed.

(** X3: Below capacity, [set] on a key that is present replaces its value where
    it stands: no key moves, none is evicted, no other value changes. *)
Theorem lru_set_present_below_capacity key value c :
  jsmap_size (entries c) < capacity c → key ∈ (entries c).*1 →
  (entries (set key value c)).*1 = (entries c).*1
  ∧ jsmap_get key (entries (set key value c)) = Some value
  ∧ (∀ k, k ≠ key →
          jsmap_get k (entries (set key value c)) = jsmap_get k (entries c)).
Proof.
  intros Hlt Hin. unfold set; simpl.
  destruct (Z.geb_spec (jsmap_size (entries c)) (capacity c)); [lia|].
  split_and!.
  - by apply jsmap_keys_set_present.
  - apply jsmap_get_set_eq.
  - intros k Hne. by apply jsmap_get_set_ne.
Qed.

(** X4: [set] at or over capacity, by where its key stands.  The first key in
    iteration order always goes.  If the key set is that first key, it
    comes back as the last entry; if it is another key that is present, its
    value is replaced where it stands and the cache ends one entry smaller;
    if it is absent, it is appended. *)
Theorem lru_set_at_capacity key value c k0 v0 rest :
  capacity c ≤ jsmap_size (entries c) →
  NoDup ((entries c).*1) →
  entries c = (k0, v0) :: rest →
  (key = k0 → entries (set key value c) = rest ++ [(k0, value)])
  ∧ (key ∈ rest.*1 →
       (entries (set key value c)).*1 = rest.*1
       ∧ jsmap_get key (entries (set key value c)) = Some value
       ∧ jsmap_has k0 (entries (set key value c)) = false
       ∧ jsmap_size (entries (set key value c)) = jsmap_size (entries c) - 1)
  ∧ (key ∉ (entries c).*1 →
       entries (set key value c) = rest ++ [(key, value)]).
Proof.
  intros Hge Hnd Hent.
  rewrite (lru_set_full key value c k0 v0 rest Hge Hnd Hent).
  rewrite Hent in Hnd |- *. csimpl in Hnd. apply NoDup_cons in Hnd as [Hk0 Hnd].
  split_and!.
  - intros ->. by apply jsmap_set_fresh.
  - intros Hin.
    assert ((jsmap_set key value rest).*1 = rest.*1) as Hkeys
      by by apply jsmap_keys_set_present.
    split_and!.
    + done.
    + apply jsmap_get_set_eq.
    + apply jsmap_has_false. by rewrite Hkeys.
    + unfold jsmap_size. rewrite jsmap_length_set_has by done. simpl. lia.
  - csimpl. rewrite not_elem_of_cons. intros [_ Hnin].
    by apply jsmap_set_fresh.
Qed.
End lru_more.

Section lru_order.
Context {K V : Type} `{!EqDecision K}.
Implicit Types (k key : K) (v value : V) (m kvs rest : list (K * V)).
Implicit Types (c : CacheLRU.t K V).
Import CacheLRU.

(** [set] of a key that is absent: the pair is appended, after the first
    entry has gone if the cache was at or over capacity. *)
Lemma lru_set_fresh key value c :
  NoDup ((entries c).*1) → key ∉ (entries c).*1 →
  entries (set key value c)
  = (if jsmap_size (entries c) >=? capacity c
     then tail (entries c) else entries c) ++ [(key, value)].
Proof.
  unfold set; simpl.
  destruct (jsmap_size (entries c) >=? capacity c).
  - destruct (entries c) as [|[k0 v0] rest]; intros Hnd Hfresh; [done|].
    change (evict_first ((k0, v0) :: rest))
      with (jsmap_delete k0 ((k0, v0) :: rest)).
    rewrite jsmap_delete_head by done. simpl.
    apply jsmap_set_fresh. csimpl in Hfresh.
    apply not_elem_of_cons in Hfresh. tauto.
  - intros _ Hfresh. by apply jsmap_set_fresh.
Qed.

Lemma tail_drop {A} (l : list A) (j : nat) : tail (drop j l) = drop (S j) l.
Proof.
  revert j. induction l as [|x l IH]; intros [|j]; simpl; done.
Qed.

(** X5: Distinct keys set one after the other on the empty cache of capacity
    [C >= 1]: whatever their number, the cache ends up holding the last [C]
    of the pairs (all of them if they are fewer), in insertion order. *)
Theorem lru_set_all_keeps_the_last_pairs (C : Z) kvs :
  1 ≤ C → NoDup (kvs.*1) →
  entries (set_all kvs (new (Some C)))
  = drop (length kvs - Z.to_nat C) kvs.
Proof.
  intros HC. induction kvs as [|[k v] kvs IH] using rev_ind; intros Hnd;
    [done|].
  rewrite fmap_app in Hnd. apply NoDup_app in Hnd as (Hnd & Hfresh & _).
  specialize (IH Hnd). rewrite lru_set_all_snoc.
  change ((k, v).1) with k. change ((k, v).2) with v.
  set (j := (length kvs - Z.to_nat C)%nat) in *.
  assert (k ∉ (drop j kvs).*1) as Hk.
  { intros Hin. apply (Hfresh k).
    - rewrite fmap_drop in Hin. by eapply subseteq_drop.
    - csimpl. apply elem_of_cons. by left. }
  rewrite lru_set_fresh; rewrite IH; [| |done].
  2:{ rewrite fmap_drop. eapply sublist_NoDup; [exact Hnd|apply sublist_drop]. }
  rewrite lru_capacity_set_all. simpl capacity.
  unfold jsmap_size. rewrite length_drop, length_app. simpl length.
  destruct (Z.geb_spec (Z.of_nat (length kvs - j)) C) as [Hge|Hlt].
  - rewrite tail_drop.
    replace (length kvs + 1 - Z.to_nat C)%nat with (S j) by lia.
    rewrite drop_app_le by lia. done.
  - replace (length kvs + 1 - Z.to_nat C)%nat with 0%nat by lia.
    replace j with 0%nat by lia. by rewrite !drop_0.
Qed.



Lemma lru_nonpos_size_step c (o : op K V) :
  capacity c ≤ 0 → jsmap_size (entries c) ≤ 1 →
  jsmap_size (entries (step c o)) ≤ 1.
Proof.
  unfold jsmap_size. intros Hcap Hsz.
  destruct o as [key|key value|key|]; simpl.
  - pose proof (lru_get_length key c). lia.
  - unfold set; simpl. unfold jsmap_size.
    destruct (Z.geb_spec (Z.of_nat (length (entries c))) (capacity c)); [|lia].
    pose proof (lru_evict_first_length (entries c)).
    pose proof (jsmap_length_set key value (evict_first (entries c))). lia.
  - pose proof (jsmap_length_delete key (entries c)). lia.
  - lia.
Qed.

Lemma lru_nonpos_size_run (ops : list (op K V)) c :
  capacity c ≤ 0 → jsmap_size (entries c) ≤ 1 →
  jsmap_size (entries (run ops c)) ≤ 1.
Proof.
  unfold run. revert c.
  induction ops as [|o ops IH]; intros c Hcap Hsz; simpl; [done|].
  apply IH; [by rewrite lru_capacity_step | by apply lru_nonpos_size_step].
Qed.

(** X7: A cache constructed with a capacity of 0 or below holds, after every
    [set], the pair just set and nothing else, whatever was done before. *)
Theorem lru_nonpositive_capacity_keeps_only_the_last_set
    (C : Z) (ops : list (op K V)) key value :
  C ≤ 0 →
  entries (set key value (run ops (new (Some C)))) = [(key, value)].
Proof.
  intros HC. set (c := run ops (new (Some C))).
  assert (capacity c = C) as Hcap by apply lru_capacity_run.
  assert (jsmap_size (entries c) ≤ 1) as Hsz
    by (apply lru_nonpos_size_run; unfold jsmap_size; simpl; lia).
  unfold set; simpl. rewrite Hcap. unfold jsmap_size in *.
  destruct (Z.geb_spec (Z.of_nat (length (entries c))) C); [|lia].
  destruct (entries c) as [|[k0 v0] [|? ?]]; simpl in Hsz; [done| |lia].
  unfold evict_first; simpl. by rewrite decide_True.
Qed.
End lru_order.

(** ** More about CacheTTL: the timer *)

Section ttl_timer.
Context {K V : Type} `{!EqDecision K}.
Implicit Types (k key : K) (v data : V) (now t e : Z) (ttl : option Z).
Implicit Types (c : CacheTTL.t K V).
Import CacheTTL.

Lemma sweep_fold_interval now (l : list (K * Z)) c :
  interval (foldl (sweep_entry now) c l) = interval c.
Proof.
  revert c. induction l as [|[key x] l IH]; intros c; simpl; [done|].
  rewrite IH. by destruct (now >? x).
Qed.

Lemma ttl_interval_start c : interval (startExpirationInterval c) = interval c.
Proof.
  unfold startExpirationInterval. destruct (expirationInterval c); [done|].
  by destruct (_ && _).
Qed.

Lemma ttl_interval_step c (o : op K V) : interval (step c o) = interval c.
Proof.
  destruct o as [key data ttl now|key now|key| |now]; simpl; try done.
  - unfold set. by rewrite ttl_interval_start.
  - unfold get. by destruct (_ && _).
  - unfold tick, sweep. destruct (expirationInterval c); [|done].
    destruct (_ =? 0); simpl; apply sweep_fold_interval.
Qed.

Lemma ttl_interval_run (ops : list (op K V)) c :
  interval (run ops c) = interval c.
Proof.
  unfold run. revert c.
  induction ops as [|o ops IH]; intros c; simpl; [done|].
  by rewrite IH, ttl_interval_step.
Qed.

(** What the handle can be: none, or the one timer of the object, which
    exists only for a positive interval and has that period. *)
Lemma ttl_handle_start c :
  expirationInterval c = None
  ∨ (0 < interval c
     ∧ expirationInterval c = Some {| period := interval c |}) →
  expirationInterval (startExpirationInterval c) = None
  ∨ (0 < interval (startExpirationInterval c)
     ∧ expirationInterval (startExpirationInterval c)
       = Some {| period := interval (startExpirationInterval c) |}).
Proof.
  intros Hc. unfold startExpirationInterval.
  destruct (expirationInterval c) as [h|] eqn:Hh.
  - by rewrite Hh.
  - destruct (jsmap_size (expirationTimes c) >? 0); simpl; [|by left].
    destruct (Z.gtb_spec (interval c) 0); simpl; [|by left].
    right. split; [lia|done].
Qed.

Lemma ttl_handle_step c (o : op K V) :
  expirationInterval c = None
  ∨ (0 < interval c
     ∧ expirationInterval c = Some {| period := interval c |}) →
  expirationInterval (step c o) = None
  ∨ (0 < interval (step c o)
     ∧ expirationInterval (step c o)
       = Some {| period := interval (step c o) |}).
Proof.
  intros Hc. destruct o as [key data ttl now|key now|key| |now]; simpl.
  - unfold set. by apply ttl_handle_start.
  - unfold get. by destruct (_ && _).
  - done.
  - done.
  - unfold tick. destruct (expirationInterval c) as [h|] eqn:Hh; [|by left].
    unfold sweep. destruct (_ =? 0); simpl; [by left|].
    rewrite sweep_fold_handle, sweep_fold_interval, Hh. exact Hc.
Qed.

Lemma ttl_handle_new itv : expirationInterval (new (K:=K) (V:=V) itv) = None.
Proof. unfold new; simpl. by destruct (default 0 itv >? 0). Qed.

Lemma ttl_handle_run (ops : list (op K V)) c :
  expirationInterval c = None
  ∨ (0 < interval c
     ∧ expirationInterval c = Some {| period := interval c |}) →
  expirationInterval (run ops c) = None
  ∨ (0 < interval (run ops c)
     ∧ expirationInterval (run ops c)
       = Some {| period := interval (run ops c) |}).
Proof.
  unfold run. revert c.
  induction ops as [|o ops IH]; intros c Hc; simpl; [done|].
  by apply IH, ttl_handle_step.
Qed.

Lemma ttl_interval_new itv : interval (new (K:=K) (V:=V) itv) = default 0 itv.
Proof. unfold new; simpl. by destruct (default 0 itv >? 0). Qed.



(** X10: With an interval of 0 or below, no sweep is ever scheduled, so a
    firing of the timer never happens and entries only leave through [get],
    [delete] and [clear]. *)
Theorem ttl_no_sweep_without_positive_interval
    (itv : option Z) (ops : list (op K V)) :
  default 0 itv ≤ 0 →
  expirationInterval (run ops (new itv)) = None
  ∧ (∀ now, tick now (run ops (new itv)) = run ops (new itv)).
Proof.
  intros Hle.
  assert (expirationInterval (run ops (new (K:=K) (V:=V) itv)) = None) as Hn.
  { destruct (ttl_handle_run ops (new (K:=K) (V:=V) itv)) as [Hc|[Hpos _]].
    - left. apply ttl_handle_new.
    - done.
    - rewrite ttl_interval_run, ttl_interval_new in Hpos. lia. }
  split; [done|]. intros now. unfold tick. by rewrite Hn.
Qed.
End ttl_timer.

(** ** More about CacheTTL: the sweep *)

Section ttl_sweep.
Context {K V : Type} `{!EqDecision K}.
Implicit Types (k key : K) (v data : V) (now t e : Z) (ttl : option Z).
Implicit Types (c : CacheTTL.t K V).
Import CacheTTL.

Lemma jsmap_delete_filter {A} k (m : list (K * A)) :
  jsmap_delete k m = filter (λ p, p.1 ≠ k) m.
Proof.
  induction m as [|[k' x] m IH]; simpl; [done|].
  case_decide as Heq.
  - subst. rewrite filter_cons_False by (simpl; tauto). done.
  - rewrite filter_cons_True by (simpl; congruence). by rewrite IH.
Qed.

Lemma filter_ext_elem {A} (P Q : A → Prop)
    `{!∀ x, Decision (P x), !∀ x, Decision (Q x)} (l : list A) :
  (∀ x, x ∈ l → P x ↔ Q x) → filter P l = filter Q l.
Proof.
  induction l as [|a l IH]; intros Hiff; [done|].
  assert (filter P l = filter Q l) as Hl.
  { apply IH. intros x Hx. apply Hiff, elem_of_cons. by right. }
  assert (P a ↔ Q a) as Ha by (apply Hiff, elem_of_cons; by left).
  destruct (decide (P a)).
  - rewrite !filter_cons_True by tauto. by rewrite Hl.
  - rewrite !filter_cons_False by tauto. done.
Qed.

Lemma filter_all {A} (P : A → Prop) `{!∀ x, Decision (P x)} (l : list A) :
  (∀ x, P x) → filter P l = l.
Proof.
  intros HP. induction l as [|a l IH]; [done|].
  by rewrite filter_cons_True, IH.
Qed.

Lemma jsmap_get_filter_keys {A} k (ks : list K) (m : list (K * A)) :
  jsmap_get k (filter (λ p, p.1 ∉ ks) m)
  = if decide (k ∈ ks) then None else jsmap_get k m.
Proof.
  induction m as [|[k' x] m IH]; simpl.
  - by case_decide.
  - destruct (decide (k' ∈ ks)) as [Hin|Hnin].
    + rewrite filter_cons_False by (simpl; tauto). rewrite IH.
      repeat case_decide; naive_solver.
    + rewrite filter_cons_True by done. simpl. rewrite IH.
      repeat case_decide; naive_solver.
Qed.

(** The keys a sweep at [now] deletes while it visits [l]. *)
Lemma sweep_fold_filter now (l : list (K * Z)) c :
  expirationTimes (foldl (sweep_entry now) c l)
  = filter (λ p, p.1 ∉ (filter (λ q, q.2 < now) l).*1) (expirationTimes c)
  ∧ entries (foldl (sweep_entry now) c l)
    = filter (λ p, p.1 ∉ (filter (λ q, q.2 < now) l).*1) (entries c).
Proof.
  revert c. induction l as [|[key x] l IH]; intros c.
  - simpl. split; symmetry; apply filter_all; intros; apply not_elem_of_nil.
  - change (foldl (sweep_entry now) c ((key, x) :: l))
      with (foldl (sweep_entry now) (sweep_entry now c (key, x)) l).
    destruct (IH (sweep_entry now c (key, x))) as [IH1 IH2].
    rewrite IH1, IH2. unfold sweep_entry.
    destruct (Z.gtb_spec now x) as [Hgt|Hle].
    + rewrite (filter_cons_True _ (key, x)) by (simpl; lia). csimpl.
      rewrite !jsmap_delete_filter, !list_filter_filter.
      split; apply list_filter_iff; intros [k y]; simpl;
        rewrite not_elem_of_cons; naive_solver.
    + rewrite (filter_cons_False _ (key, x)) by (simpl; lia). done.
Qed.

(** X11: A firing of the sweep at [now] keeps exactly the entries whose
    timestamp is not below [now], in their order, timestamps and values
    unchanged, in the expiry index and in the value store alike.  A
    timestamp of 0 is treated like any other here. *)
Theorem ttl_sweep_keeps_exactly_the_unexpired now c :
  lockstep c →
  expirationTimes (sweep now c)
  = filter (λ p, now ≤ p.2) (expirationTimes c)
  ∧ (∀ k, jsmap_get k (entries (sweep now c))
          = match jsmap_get k (expirationTimes c) with
            | Some e => if now >? e then None else jsmap_get k (entries c)
            | None => None
            end)
  ∧ lockstep (sweep now c).
Proof.
  intros Hl. pose proof Hl as [Hk Hnd]. rewrite Hk in Hnd.
  destruct (sweep_fold_filter now (expirationTimes c) c) as [Hx He].
  assert (∀ k e, jsmap_get k (expirationTimes c) = Some e →
            k ∈ (filter (λ q : K * Z, q.2 < now) (expirationTimes c)).*1
            ↔ e < now) as Hgone.
  { intros k e Hg. rewrite list_elem_of_fmap. split.
    - intros ([k' e'] & -> & [Hlt Hin]%list_elem_of_filter). simpl in *.
      apply jsmap_elem_get in Hin; [|done]. congruence.
    - intros Hlt. exists (k, e). split; [done|].
      apply list_elem_of_filter. split; [done|].
      clear -Hg. induction (expirationTimes c) as [|[k' e'] m IH];
        simpl in Hg; [done|].
      case_decide; simplify_eq; [apply elem_of_cons; by left|].
      apply elem_of_cons. right. by apply IH. }
  split_and!.
  - unfold sweep. cbv zeta.
    assert (expirationTimes (foldl (sweep_entry now) c (expirationTimes c))
            = filter (λ p, now ≤ p.2) (expirationTimes c)) as Hres.
    { rewrite Hx. apply filter_ext_elem. intros [k e] Hin. simpl.
      apply jsmap_elem_get in Hin; [|done].
      rewrite (Hgone k e Hin). lia. }
    destruct (_ =? 0); simpl; exact Hres.
  - intros k. unfold sweep. cbv zeta.
    assert (entries (if jsmap_size
                          (expirationTimes
                             (foldl (sweep_entry now) c (expirationTimes c)))
                        =? 0
                     then with_expirationInterval None
                            (foldl (sweep_entry now) c (expirationTimes c))
                     else foldl (sweep_entry now) c (expirationTimes c))
            = entries (foldl (sweep_entry now) c (expirationTimes c))) as ->
      by by destruct (_ =? 0).
    rewrite He, jsmap_get_filter_keys.
    destruct (jsmap_get k (expirationTimes c)) as [e|] eqn:Hg.
    + pose proof (Hgone k e Hg) as Hiff.
      destruct (Z.gtb_spec now e); case_decide; try done; naive_solver lia.
    + case_decide; [done|].
      apply jsmap_get_None. rewrite (proj1 Hl). by apply jsmap_get_None.
  - by apply lockstep_sweep.
Qed.
End ttl_sweep.

(** ** More about CacheTTL: reads, deletes and what [has] sees *)

Section ttl_more.
Context {K V : Type} `{!EqDecision K}.
Implicit Types (k key : K) (v data : V) (now t e : Z) (ttl : option Z).
Implicit Types (c : CacheTTL.t K V).
Import CacheTTL.

Lemma lockstep_untracked key c :
  lockstep c → jsmap_has key (entries c) = false →
  jsmap_get key (expirationTimes c) = None
  ∧ jsmap_get key (entries c) = None.
Proof.
  intros [Hk _] Hh%jsmap_has_false. split; apply jsmap_get_None; [|done].
  by rewrite <- Hk.
Qed.

(** X12: [get] of a key that the cache does not hold returns absent and changes
    nothing, whatever the clock reads. *)
Theorem ttl_get_of_a_missing_key key now c :
  lockstep c → has key c = false → get key now c = (None, c).
Proof.
  intros Hl Hh. destruct (lockstep_untracked key c Hl Hh) as [Hx Hv].
  by rewrite (get_untracked key now c Hx), Hv.
Qed.

(** X13: [delete]: it answers whether the key was held; a key that was not held
    leaves the cache as it was; afterwards [has] is false and [get] returns
    absent at every clock reading, and reads of the other keys are as
    before. *)
Theorem ttl_delete_removes_the_key_only key c :
  lockstep c →
  (delete key c).1 = has key c
  ∧ (has key c = false → (delete key c).2 = c)
  ∧ has key (delete key c).2 = false
  ∧ (∀ t, get key t (delete key c).2 = (None, (delete key c).2))
  ∧ (∀ k t, k ≠ key → (get k t (delete key c).2).1 = (get k t c).1).
Proof.
  intros Hl. split_and!.
  - done.
  - intros Hh. destruct Hl as [Hk _]. apply jsmap_has_false in Hh.
    destruct c as [m i x h]; unfold delete, with_entries, with_expirationTimes;
      simpl in *.
    rewrite !jsmap_delete_fresh; [done|by rewrite <- Hk|done].
  - unfold has, jsmap_has; simpl. by rewrite jsmap_get_delete_eq.
  - intros t. unfold get; simpl. by rewrite !jsmap_get_delete_eq.
  - intros k t Hne. unfold get; simpl.
    rewrite !jsmap_get_delete_ne by done. by destruct (_ && _).
Qed.

(** X14: [set] of one key does not change what [get] returns for another. *)
Theorem ttl_set_leaves_other_keys_alone key data ttl now k t c :
  k ≠ key → (get k t (set key data ttl now c)).1 = (get k t c).1.
Proof.
  intros Hne. unfold get.
  rewrite set_expirationTimes, set_entries, !jsmap_get_set_ne by done.
  by destruct (_ && _).
Qed.

(** X15: [has] and [size] do not look at the clock: after its timestamp has
    passed, an entry still counts as held until a [get] of its key (or a
    sweep) removes it. *)
Theorem ttl_has_ignores_expiry key data ttl now t c :
  now + default (interval c) ttl < t →
  now + default (interval c) ttl ≠ 0 →
  has key (set key data ttl now c) = true
  ∧ 1 ≤ size (set key data ttl now c)
  ∧ (get key t (set key data ttl now c)).1 = None
  ∧ has key (get key t (set key data ttl now c)).2 = false.
Proof.
  intros Hlt Hnz.
  assert (jsmap_get key (expirationTimes (set key data ttl now c))
          = Some (now + default (interval c) ttl)) as Hx
    by (rewrite set_expirationTimes; apply jsmap_get_set_eq).
  split_and!.
  - unfold has, jsmap_has. by rewrite set_entries, jsmap_get_set_eq.
  - unfold size, jsmap_size. rewrite set_entries.
    destruct (entries c) as [|[k0 v0] m]; simpl; [lia|].
    case_decide; simpl; lia.
  - by eapply get_passed.
  - unfold get. rewrite Hx. simpl.
    destruct (Z.eqb_spec (now + default (interval c) ttl) 0); [done|].
    destruct (Z.gtb_spec t (now + default (interval c) ttl)); [|lia]. simpl.
    unfold has, jsmap_has; simpl. by rewrite jsmap_get_delete_eq.
Qed.

(** X16: The lazy expiry in [get] removes the entry of its key and no other: the
    cache is one entry smaller, and every other key keeps its value and its
    timestamp. *)
Theorem ttl_lazy_expiry_removes_one_entry key e t c :
  lockstep c →
  jsmap_get key (expirationTimes c) = Some e → e ≠ 0 → e < t →
  (get key t c).1 = None
  ∧ has key (get key t c).2 = false
  ∧ size (get key t c).2 = size c - 1
  ∧ (∀ k, k ≠ key →
       jsmap_get k (entries (get key t c).2) = jsmap_get k (entries c)
       ∧ jsmap_get k (expirationTimes (get key t c).2)
         = jsmap_get k (expirationTimes c)).
Proof.
  intros [Hk Hnd] Hx Hnz Hlt.
  assert (get key t c
          = (None,
             with_entries (jsmap_delete key (entries c))
               (with_expirationTimes
                  (jsmap_delete key (expirationTimes c)) c))) as ->.
  { unfold get. rewrite Hx. simpl.
    destruct (Z.eqb_spec e 0); [done|].
    by destruct (Z.gtb_spec t e); [|lia]. }
  split_and!.
  - done.
  - unfold has, jsmap_has; simpl. by rewrite jsmap_get_delete_eq.
  - unfold size, jsmap_size; simpl.
    assert (key ∈ (entries c).*1) as Hin
      by (rewrite Hk; by eapply jsmap_get_Some_elem).
    pose proof (jsmap_length_delete_NoDup key (entries c) Hnd Hin). lia.
  - intros k Hne; simpl. by rewrite !jsmap_get_delete_ne.
Qed.

(** X17: [set] without a [ttl] uses the interval of the cache as the time to
    live: on any cache the operations can reach, the value is read up to
    [now + interval] and is absent after it (when that timestamp is not 0),
    whatever firings of the sweep came in between.  With the default
    interval 0 the value is read at the clock reading of the [set] only. *)
Theorem ttl_set_without_ttl_lives_one_interval
    (itv : option Z) (ops : list (op K V)) key data now (ts : list Z) t :
  Forall (λ s, s ≤ t) ts →
  (t ≤ now + default 0 itv →
   (get key t (ticks ts (set key data None now (run ops (new itv))))).1
   = Some data)
  ∧ (now + default 0 itv < t → now + default 0 itv ≠ 0 →
     (get key t (ticks ts (set key data None now (run ops (new itv))))).1
     = None).
Proof.
  intros Hts.
  assert (lockstep (run ops (new (K:=K) (V:=V) itv))) as Hl
    by apply lockstep_run, lockstep_new.
  destruct (get_after_set_ticks key data None now ts t _ Hl) as [H1 H2].
  simpl in H1, H2. rewrite ttl_interval_run, ttl_interval_new in H1, H2.
  split; [intros Hle; by apply H1 | exact H2].
Qed.
(** X18: A negative [ttl] whose timestamp [now + ttl] is not 0 makes the entry
    read as absent from the clock reading of the [set] on, on any cache the
    operations can reach and whatever firings of the sweep came in
    between. *)
Theorem ttl_negative_ttl_reads_absent_at_once
    (itv : option Z) (ops : list (op K V)) key data (d : Z) now
    (ts : list Z) t :
  d < 0 → now + d ≠ 0 → now ≤ t →
  (get key t (ticks ts (set key data (Some d) now (run ops (new itv))))).1
  = None.
Proof.
  intros Hd Hnz Hle.
  assert (lockstep (run ops (new (K:=K) (V:=V) itv))) as Hl
    by apply lockstep_run, lockstep_new.
  apply (get_after_set_ticks key data (Some d) now ts t _ Hl); simpl;
    [lia|done].
Qed.
End ttl_more.

(** ** The further properties on concrete caches *)

Local Open Scope string_scope.
Local Open Scope list_scope.
Local Open Scope Z_scope.

Ltac by_computation := apply (bool_decide_unpack _); vm_compute; exact I.

(** X3, witness. *)
Lemma lru_set_present_below_capacity_witness :
  (CacheLRU.entries
     (CacheLRU.set "a" 9
        {| CacheLRU.entries := [("a", 1); ("b", 2)];
           CacheLRU.capacity := 3 |})).*1 = ["a"; "b"]
  ∧ jsmap_get "a"
      (CacheLRU.entries
         (CacheLRU.set "a" 9
            {| CacheLRU.entries := [("a", 1); ("b", 2)];
               CacheLRU.capacity := 3 |})) = Some 9.
Proof.
  destruct (lru_set_present_below_capacity "a" 9
              {| CacheLRU.entries := [("a", 1); ("b", 2)];
                 CacheLRU.capacity := 3 |}) as (Hkeys & Hval & _).
  - unfold jsmap_size; simpl; lia.
  - by_computation.
  - split; [exact Hkeys | exact Hval].
Defined.

(** X4, witness. *)
Lemma lru_set_at_capacity_witness :
  CacheLRU.entries
    (CacheLRU.set "a" 9
       {| CacheLRU.entries := [("a", 1); ("b", 2)]; CacheLRU.capacity := 2 |})
  = [("b", 2); ("a", 9)]
  ∧ jsmap_size
      (CacheLRU.entries
         (CacheLRU.set "b" 9
            {| CacheLRU.entries := [("a", 1); ("b", 2)];
               CacheLRU.capacity := 2 |})) = 2 - 1
  ∧ CacheLRU.entries
      (CacheLRU.set "c" 3
         {| CacheLRU.entries := [("a", 1); ("b", 2)]; CacheLRU.capacity := 2 |})
    = [("b", 2); ("c", 3)].
Proof.
  assert (NoDup ([("a", 1); ("b", 2)].*1)) as Hnd by by_computation.
  assert (2 ≤ jsmap_size [("a", 1); ("b", 2)]) as Hge
    by (unfold jsmap_size; simpl; lia).
  destruct (lru_set_at_capacity "a" 9
              {| CacheLRU.entries := [("a", 1); ("b", 2)];
                 CacheLRU.capacity := 2 |} "a" 1 [("b", 2)] Hge Hnd eq_refl)
    as (Hfirst & _ & _).
  destruct (lru_set_at_capacity "b" 9
              {| CacheLRU.entries := [("a", 1); ("b", 2)];
                 CacheLRU.capacity := 2 |} "a" 1 [("b", 2)] Hge Hnd eq_refl)
    as (_ & Hother & _).
  destruct (lru_set_at_capacity "c" 3
              {| CacheLRU.entries := [("a", 1); ("b", 2)];
                 CacheLRU.capacity := 2 |} "a" 1 [("b", 2)] Hge Hnd eq_refl)
    as (_ & _ & Habsent).
  split_and!.
  - apply Hfirst. reflexivity.
  - apply Hother. by_computation.
  - apply Habsent. by_computation.
Defined.

(** X5, witness. *)
Lemma lru_set_all_keeps_the_last_pairs_witness :
  CacheLRU.entries
    (CacheLRU.set_all [("a", 1); ("b", 2); ("c", 3); ("d", 4)]
       (CacheLRU.new (Some 2)))
  = [("c", 3); ("d", 4)].
Proof.
  apply (lru_set_all_keeps_the_last_pairs 2
           [("a", 1); ("b", 2); ("c", 3); ("d", 4)]); [lia | by_computation].
Defined.


(** X7, witness. *)
Lemma lru_nonpositive_capacity_keeps_only_the_last_set_witness :
  CacheLRU.entries
    (CacheLRU.set "c" 3
       (CacheLRU.run [CacheLRU.Set_ "a" 1; CacheLRU.Set_ "b" 2; CacheLRU.Get "b"]
          (CacheLRU.new (Some (-3)))))
  = [("c", 3)].
Proof.
  apply (lru_nonpositive_capacity_keeps_only_the_last_set (-3)). lia.
Defined.


(** X10, witness. *)
Lemma ttl_no_sweep_without_positive_interval_witness :
  CacheTTL.expirationInterval
    (CacheTTL.run [CacheTTL.Set_ "a" 1 (Some 5) 0] (CacheTTL.new None)) = None
  ∧ CacheTTL.tick 100
      (CacheTTL.run [CacheTTL.Set_ "a" 1 (Some 5) 0] (CacheTTL.new None))
    = CacheTTL.run [CacheTTL.Set_ "a" 1 (Some 5) 0] (CacheTTL.new None).
Proof.
  assert (default 0 None ≤ 0) as Hle by (simpl; lia).
  destruct (ttl_no_sweep_without_positive_interval
              None [CacheTTL.Set_ "a" 1 (Some 5) 0] Hle) as [Hnone Htick].
  split; [exact Hnone | exact (Htick 100)].
Defined.

(** X11, witness. *)
Lemma ttl_sweep_keeps_exactly_the_unexpired_witness :
  CacheTTL.expirationTimes
    (CacheTTL.sweep 10
       (CacheTTL.run
          [CacheTTL.Set_ "a" 1 (Some 5) 0; CacheTTL.Set_ "b" 2 (Some 50) 0]
          (CacheTTL.new (Some 10))))
  = [("b", 50)]
  ∧ jsmap_get "a"
      (CacheTTL.entries
         (CacheTTL.sweep 10
            (CacheTTL.run
               [CacheTTL.Set_ "a" 1 (Some 5) 0;
                CacheTTL.Set_ "b" 2 (Some 50) 0]
               (CacheTTL.new (Some 10))))) = None.
Proof.
  assert (CacheTTL.lockstep
            (CacheTTL.run
               [CacheTTL.Set_ "a" 1 (Some 5) 0;
                CacheTTL.Set_ "b" 2 (Some 50) 0]
               (CacheTTL.new (Some 10)))) as Hl
    by (split; [reflexivity | by_computation]).
  destruct (ttl_sweep_keeps_exactly_the_unexpired 10 _ Hl) as (Hx & He & _).
  split; [exact Hx | exact (He "a")].
Defined.

(** X12, witness. *)
Lemma ttl_get_of_a_missing_key_witness :
  CacheTTL.get "z" 3 (CacheTTL.set "a" 1 (Some 5) 0 (CacheTTL.new None))
  = (None, CacheTTL.set "a" 1 (Some 5) 0 (CacheTTL.new None)).
Proof.
  apply ttl_get_of_a_missing_key;
    [split; [reflexivity | by_computation] | reflexivity].
Defined.

(** X13, witness. *)
Lemma ttl_delete_removes_the_key_only_witness :
  CacheTTL.has "a"
    (CacheTTL.delete "a"
       (CacheTTL.set "a" 1 (Some 5) 0 (CacheTTL.new None))).2 = false
  ∧ (CacheTTL.delete "z"
       (CacheTTL.set "a" 1 (Some 5) 0 (CacheTTL.new None))).2
    = CacheTTL.set "a" 1 (Some 5) 0 (CacheTTL.new None).
Proof.
  assert (CacheTTL.lockstep
            (CacheTTL.set "a" 1 (Some 5) 0 (CacheTTL.new None))) as Hl
    by (split; [reflexivity | by_computation]).
  split.
  - apply (ttl_delete_removes_the_key_only "a" _ Hl).
  - apply (ttl_delete_removes_the_key_only "z" _ Hl). reflexivity.
Defined.

(** X14, witness. *)
Lemma ttl_set_leaves_other_keys_alone_witness :
  (CacheTTL.get "a" 3
     (CacheTTL.set "b" 2 (Some 1) 2
        (CacheTTL.set "a" 1 (Some 5) 0 (CacheTTL.new None)))).1
  = (CacheTTL.get "a" 3
       (CacheTTL.set "a" 1 (Some 5) 0 (CacheTTL.new None))).1.
Proof. apply ttl_set_leaves_other_keys_alone. by_computation. Defined.

(** X15, witness. *)
Lemma ttl_has_ignores_expiry_witness :
  CacheTTL.has "a" (CacheTTL.set "a" 1 (Some 5) 0 (CacheTTL.new None)) = true
  ∧ (CacheTTL.get "a" 6
       (CacheTTL.set "a" 1 (Some 5) 0 (CacheTTL.new None))).1 = None.
Proof.
  destruct (ttl_has_ignores_expiry "a" 1 (Some 5) 0 6 (CacheTTL.new None))
    as (Hhas & _ & Hget & _); [simpl; lia | simpl; lia |].
  split; [exact Hhas | exact Hget].
Defined.

(** X16, witness. *)
Lemma ttl_lazy_expiry_removes_one_entry_witness :
  CacheTTL.size
    (CacheTTL.get "a" 6
       (CacheTTL.set "a" 1 (Some 5) 0
          (CacheTTL.set "b" 2 (Some 50) 0 (CacheTTL.new None)))).2
  = CacheTTL.size
      (CacheTTL.set "a" 1 (Some 5) 0
         (CacheTTL.set "b" 2 (Some 50) 0 (CacheTTL.new None))) - 1.
Proof.
  apply (ttl_lazy_expiry_removes_one_entry "a" 5 6).
  - split; [reflexivity | by_computation].
  - reflexivity.
  - lia.
  - lia.
Defined.

(** X17, witness. *)
Lemma ttl_set_without_ttl_lives_one_interval_witness :
  (CacheTTL.get "a" 110
     (CacheTTL.ticks [105; 110]
        (CacheTTL.set "a" 1 None 100
           (CacheTTL.run [] (CacheTTL.new (Some 10)))))).1 = Some 1
  ∧ (CacheTTL.get "a" 101
       (CacheTTL.ticks []
          (CacheTTL.set "a" 1 None 100
             (CacheTTL.run [] (CacheTTL.new None))))).1 = None.
Proof.
  split.
  - apply (ttl_set_without_ttl_lives_one_interval
             (Some 10) [] "a" 1 100 [105; 110] 110);
      [rewrite !Forall_cons; split_and!; [lia | lia | constructor]
      | simpl; lia].
  - apply (ttl_set_without_ttl_lives_one_interval None [] "a" 1 100 [] 101);
      [constructor | simpl; lia | simpl; lia].
Defined.

(** X18, witness. *)
Lemma ttl_negative_ttl_reads_absent_at_once_witness :
  (CacheTTL.get "a" 100
     (CacheTTL.ticks [100]
        (CacheTTL.set "a" 1 (Some (-5)) 100
           (CacheTTL.run [CacheTTL.Set_ "b" 2 None 0]
              (CacheTTL.new (Some 10)))))).1 = None.
Proof.
  apply (ttl_negative_ttl_reads_absent_at_once (Some 10)); lia.
Defined.
